(** * Elasticsearch embeddings cache: scroll enumeration, existence
    resolution, integrity validation and synchronisation

  A shallow embedding of [elasticsearch_manager.py] (class
  [ElasticsearchEmbeddingsCache]) and of [src/elasticsearch_helpers.py]
  ([load_all_documents_from_elasticsearch]), together with a small
  executable model of the part of the Elasticsearch client the code
  talks to.  Python exceptions are an explicit outcome, the backend is
  an explicit state, and the [while] loops of the scroll protocol take
  fuel. *)

From Stdlib Require Import Ascii String ZArith QArith Qround DecimalString DecimalN.
From stdpp Require Import base option list gmap strings sorting.

Local Open Scope Z_scope.

(* ===================================================================== *)
(** ** hashlib.md5 (RFC 1321) on byte strings *)
(* ===================================================================== *)

Module MD5.

Definition word := Z.
Definition mask32 : Z := 0xffffffff.
Definition add32 (x y : word) : word := Z.land (x + y) mask32.
Definition not32 (x : word) : word := Z.lxor x mask32.
Definition rotl32 (x : word) (c : Z) : word :=
  Z.lor (Z.land (Z.shiftl x c) mask32) (Z.shiftr x (32 - c)).

Definition shifts : list Z :=
  [ 7; 12; 17; 22; 7; 12; 17; 22; 7; 12; 17; 22; 7; 12; 17; 22;
    5;  9; 14; 20; 5;  9; 14; 20; 5;  9; 14; 20; 5;  9; 14; 20;
    4; 11; 16; 23; 4; 11; 16; 23; 4; 11; 16; 23; 4; 11; 16; 23;
    6; 10; 15; 21; 6; 10; 15; 21; 6; 10; 15; 21; 6; 10; 15; 21 ].

(** [K i = floor (2^32 * abs (sin (i + 1)))]. *)
Definition K : list Z :=
  [ 0xd76aa478; 0xe8c7b756; 0x242070db; 0xc1bdceee;
    0xf57c0faf; 0x4787c62a; 0xa8304613; 0xfd469501;
    0x698098d8; 0x8b44f7af; 0xffff5bb1; 0x895cd7be;
    0x6b901122; 0xfd987193; 0xa679438e; 0x49b40821;
    0xf61e2562; 0xc040b340; 0x265e5a51; 0xe9b6c7aa;
    0xd62f105d; 0x02441453; 0xd8a1e681; 0xe7d3fbc8;
    0x21e1cde6; 0xc33707d6; 0xf4d50d87; 0x455a14ed;
    0xa9e3e905; 0xfcefa3f8; 0x676f02d9; 0x8d2a4c8a;
    0xfffa3942; 0x8771f681; 0x6d9d6122; 0xfde5380c;
    0xa4beea44; 0x4bdecfa9; 0xf6bb4b60; 0xbebfbc70;
    0x289b7ec6; 0xeaa127fa; 0xd4ef3085; 0x04881d05;
    0xd9d4d039; 0xe6db99e5; 0x1fa27cf8; 0xc4ac5665;
    0xf4292244; 0x432aff97; 0xab9423a7; 0xfc93a039;
    0x655b59c3; 0x8f0ccc92; 0xffeff47d; 0x85845dd1;
    0x6fa87e4f; 0xfe2ce6e0; 0xa3014314; 0x4e0811a1;
    0xf7537e82; 0xbd3af235; 0x2ad7d2bb; 0xeb86d391 ].

(** Little-endian encodings. *)
Fixpoint le_bytes (n : nat) (x : Z) : list Z :=
  match n with
  | O => []
  | S n' => Z.land x 0xff :: le_bytes n' (Z.shiftr x 8)
  end.

Fixpoint le_word (bs : list Z) : Z :=
  match bs with
  | [] => 0
  | b :: bs' => Z.lor b (Z.shiftl (le_word bs') 8)
  end.

(** Message followed by 0x80, zeros up to 56 mod 64, and the bit
    length on 64 bits. *)
Definition padding (msg : list Z) : list Z :=
  let len := Z.of_nat (length msg) in
  let zeros := Z.to_nat ((55 - len) mod 64) in
  msg ++ [0x80] ++ replicate zeros 0 ++ le_bytes 8 (8 * len).

Fixpoint words (n : nat) (bs : list Z) : list word :=
  match n with
  | O => []
  | S n' => le_word (take 4 bs) :: words n' (drop 4 bs)
  end.

Fixpoint blocks (n : nat) (bs : list Z) : list (list word) :=
  match n with
  | O => []
  | S n' => words 16 (take 64 bs) :: blocks n' (drop 64 bs)
  end.

Record regs := Regs { rA : word; rB : word; rC : word; rD : word }.

Definition init : regs :=
  Regs 0x67452301 0xefcdab89 0x98badcfe 0x10325476.

Definition step (M : list word) (r : regs) (i : nat) : regs :=
  let '(Regs A B C D) := r in
  let iz := Z.of_nat i in
  let '(F, g) :=
    if iz <? 16 then (Z.lor (Z.land B C) (Z.land (not32 B) D), iz)
    else if iz <? 32 then
      (Z.lor (Z.land D B) (Z.land (not32 D) C), (5 * iz + 1) mod 16)
    else if iz <? 48 then (Z.lxor B (Z.lxor C D), (3 * iz + 5) mod 16)
    else (Z.lxor C (Z.lor B (not32 D)), (7 * iz) mod 16) in
  let F' := add32 (add32 (add32 F A) (nth i K 0)) (nth (Z.to_nat g) M 0) in
  Regs D (add32 B (rotl32 F' (nth i shifts 0))) B C.

Definition compress (r : regs) (M : list word) : regs :=
  let r' := foldl (step M) r (seq 0 64) in
  Regs (add32 (rA r) (rA r')) (add32 (rB r) (rB r'))
       (add32 (rC r) (rC r')) (add32 (rD r) (rD r')).

Definition digest (msg : list Z) : list Z :=
  let p := padding msg in
  let r := foldl compress init (blocks (length p / 64) p) in
  le_bytes 4 (rA r) ++ le_bytes 4 (rB r) ++ le_bytes 4 (rC r)
    ++ le_bytes 4 (rD r).

Definition hex_digit (d : Z) : ascii :=
  ascii_of_nat (Z.to_nat (if d <? 10 then 48 + d else 87 + d)).

Fixpoint hex (bs : list Z) : string :=
  match bs with
  | [] => EmptyString
  | b :: bs' =>
      String (hex_digit (Z.shiftr b 4))
        (String (hex_digit (Z.land b 0xf)) (hex bs'))
  end.

Fixpoint bytes_of_string (s : string) : list Z :=
  match s with
  | EmptyString => []
  | String c s' => Z.of_nat (nat_of_ascii c) :: bytes_of_string s'
  end.

(** [hashlib.md5(b).hexdigest()], [b] given as the string of its bytes. *)
Definition hexdigest (b : string) : string := hex (digest (bytes_of_string b)).

End MD5.

(* ===================================================================== *)
(** ** Identifier scheme and content hasher *)
(* ===================================================================== *)

(** Decimal digits of a natural number, most significant first. *)
Definition digits (n : N) : string := NilEmpty.string_of_uint (N.to_uint n).

Fixpoint zeros (n : nat) : string :=
  match n with
  | O => EmptyString
  | S n' => String "0" (zeros n')
  end.

(** Left-pad with ["0"] up to [width] characters; longer strings are kept. *)
Definition zfill (width : nat) (s : string) : string :=
  String.append (zeros (width - String.length s)) s.

(** Python's format specification [04d]: the sign counts in the width. *)
Definition format_04d (index : Z) : string :=
  if index <? 0 then String "-" (zfill 3 (digits (Z.abs_N index)))
  else zfill 4 (digits (Z.to_N index)).

(** [_generate_doc_id]: [f"doc_{index:04d}"]. *)
Definition _generate_doc_id (index : Z) : string :=
  String.append "doc_" (format_04d index).

(** [_generate_text_hash]: [hashlib.md5(text.encode("utf-8")).hexdigest()].
    A text is represented by its UTF-8 encoding, which is injective. *)
Definition _generate_text_hash (text : string) : string := MD5.hexdigest text.

(* ===================================================================== *)
(** ** Python values, exceptions and stored records *)
(* ===================================================================== *)

Inductive exn :=
| ConnectionError
| NotFoundError
| BadRequestError
| KeyError (key : string)
| IndexError
| ValueError.

(** A vector of floats, abstracted by exact rationals. *)
Definition vector := list Q.

Record metadata := Metadata {
  model_type : string;
  model_version : string;
  generated_at : nat;
  dimensions : Z;
  text_hash : string
}.

(** The two shapes of [_source] the code writes: rows of
    [documents_dataset] and rows of the [embeddings_*] indices. *)
Inductive source :=
| DocumentSource (doc_id text category : string) (target : Z)
    (text_hash : string) (created_at : nat)
| EmbeddingSource (doc_id : string) (embedding : vector) (meta : metadata).

(** A search hit: [_id] and [_source]. *)
Definition hit : Type := string * source.

(** [source["doc_id"]]: both shapes have the field. *)
Definition source_doc_id (src : source) : string :=
  match src with
  | DocumentSource d _ _ _ _ _ => d
  | EmbeddingSource d _ _ => d
  end.

(** [source["metadata"]["text_hash"]] *)
Definition source_metadata_text_hash (src : source) : exn + string :=
  match src with
  | EmbeddingSource _ _ m => inr (text_hash m)
  | DocumentSource _ _ _ _ _ _ => inl (KeyError "metadata")
  end.

Record doc_row := DocRow {
  row_doc_id : string;
  row_text : string;
  row_category : string;
  row_target : Z
}.

(** The dict built from one hit in step 4 of the loader. *)
Definition source_row (src : source) : exn + doc_row :=
  match src with
  | DocumentSource d t c g _ _ => inr (DocRow d t c g)
  | EmbeddingSource _ _ _ => inl (KeyError "text")
  end.

(* ===================================================================== *)
(** ** The world: backend state, clock and random generator *)
(* ===================================================================== *)

Record es_index := EsIndex {
  dims : option nat;            (* [dims] of the [dense_vector] mapping *)
  docs : gmap string source;    (* [_id] to [_source] *)
  size_in_bytes : Z             (* store statistics *)
}.

(** An open scroll: batch size and the part of the snapshot not yet
    delivered. *)
Record scroll_ctx := ScrollCtx {
  ctx_size : nat;
  ctx_pending : list hit
}.

Record world := World {
  indices : gmap string es_index;
  scrolls : gmap nat scroll_ctx;
  next_scroll : nat;
  faults : list bool;     (* outcome of the coming requests, [true] = fails *)
  clock : nat;            (* [datetime.now()] *)
  rng : nat -> Q;         (* the samples the generator will produce *)
  rng_pos : nat
}.

Definition set_indices (f : gmap string es_index -> gmap string es_index)
    (w : world) : world :=
  World (f (indices w)) (scrolls w) (next_scroll w) (faults w) (clock w)
    (rng w) (rng_pos w).

Definition set_scrolls (f : gmap nat scroll_ctx -> gmap nat scroll_ctx)
    (w : world) : world :=
  World (indices w) (f (scrolls w)) (next_scroll w) (faults w) (clock w)
    (rng w) (rng_pos w).

Definition set_next_scroll (n : nat) (w : world) : world :=
  World (indices w) (scrolls w) n (faults w) (clock w) (rng w) (rng_pos w).

Definition set_faults (fs : list bool) (w : world) : world :=
  World (indices w) (scrolls w) (next_scroll w) fs (clock w) (rng w)
    (rng_pos w).

Definition set_clock (c : nat) (w : world) : world :=
  World (indices w) (scrolls w) (next_scroll w) (faults w) c (rng w)
    (rng_pos w).

Definition set_rng_pos (p : nat) (w : world) : world :=
  World (indices w) (scrolls w) (next_scroll w) (faults w) (clock w)
    (rng w) p.

(** Result of running a piece of Python in a world. *)
Inductive outcome (A : Type) :=
| Ok (a : A) (w : world)
| Raised (e : exn) (w : world)
| OutOfFuel.
Arguments Ok {A} a w.
Arguments Raised {A} e w.
Arguments OutOfFuel {A}.

Definition M (A : Type) : Type := world -> outcome A.

#[global] Instance M_ret : MRet M := fun A a w => Ok a w.

#[global] Instance M_bind : MBind M := fun A B f m w =>
  match m w with
  | Ok a w' => f a w'
  | Raised e w' => Raised e w'
  | OutOfFuel => OutOfFuel
  end.

#[global] Instance M_fmap : FMap M := fun A B f m => a ← m; mret (f a).

Definition raise {A} (e : exn) : M A := fun w => Raised e w.

Definition diverge {A} : M A := fun _ => OutOfFuel.

(** [try: m  except Exception as e: h e] *)
Definition try_except {A} (m : M A) (h : exn -> M A) : M A := fun w =>
  match m w with
  | Raised e w' => h e w'
  | r => r
  end.

(** [try: m  except: pass] *)
Definition try_pass (m : M unit) : M unit := try_except m (fun _ => mret tt).

(** Run [m] and hand back the exception as a value. *)
Definition attempt {A} (m : M A) : M (exn + A) :=
  try_except (inr <$> m) (fun e => mret (inl e)).

(** Lift a pure computation that may raise. *)
Definition lift {A} (r : exn + A) : M A :=
  match r with
  | inl e => raise e
  | inr a => mret a
  end.

(* ===================================================================== *)
(** ** The Elasticsearch client, as far as the code uses it *)
(* ===================================================================== *)

(** [index.max_result_window]: a search may not ask for more hits. *)
Definition max_result_window : Z := 10000.

(** Every request goes over the wire: the next entry of the fault
    schedule decides whether it raises. *)
Definition transport : M unit := fun w =>
  match faults w with
  | [] => Ok tt w
  | false :: fs => Ok tt (set_faults fs w)
  | true :: fs => Raised ConnectionError (set_faults fs w)
  end.

(** A request and the server's reply to it. *)
Definition request {A} (reply : world -> outcome A) : M A :=
  transport;; (reply : M A).

Inductive query :=
| MatchAll                                 (* [{"match_all": {}}] *)
| TermsDocId (values : list string).       (* [{"terms": {"doc_id": values}}] *)

Definition matches (q : query) (h : hit) : bool :=
  match q with
  | MatchAll => true
  | TermsDocId values => bool_decide (source_doc_id h.2 ∈ values)
  end.

(** The records of an index that a query selects, in the order the
    server delivers them. *)
Definition snapshot_of (ix : es_index) (q : query) : list hit :=
  filter (fun h => matches q h) (map_to_list (docs ix)).

(** [es.indices.exists(index=...)] *)
Definition es_indices_exists (index : string) : M bool :=
  request (fun w => Ok (bool_decide (is_Some (indices w !! index))) w).

(** [es.indices.create(index=..., body=mapping)] *)
Definition es_indices_create (index : string) (mapping_dims : option nat)
    : M unit :=
  request (fun w =>
  match indices w !! index with
  | Some _ => Raised BadRequestError w
  | None => Ok tt (set_indices <[index := EsIndex mapping_dims ∅ 0]> w)
  end).

(** [es.count(index=...)["count"]] *)
Definition es_count (index : string) : M Z :=
  request (fun w =>
  match indices w !! index with
  | Some ix => Ok (Z.of_nat (size (docs ix))) w
  | None => Raised NotFoundError w
  end).

(** [es.indices.stats(index=...)["indices"][index]["total"]["store"]["size_in_bytes"]] *)
Definition es_indices_stats (index : string) : M Z :=
  request (fun w =>
  match indices w !! index with
  | Some ix => Ok (size_in_bytes ix) w
  | None => Raised NotFoundError w
  end).

(** [es.search(index=..., scroll=..., size=..., body={"query": q})]:
    takes a snapshot of the matching records, delivers its first [size]
    hits and keeps the rest under a fresh scroll id. *)
Definition es_search (index : string) (q : query) (size : Z)
    : M (nat * list hit) :=
  request (fun w =>
  match indices w !! index with
  | None => Raised NotFoundError w
  | Some ix =>
      if (size <=? 0) || (max_result_window <? size)
      then Raised BadRequestError w
      else
        let snapshot := snapshot_of ix q in
        let n := Z.to_nat size in
        let sid := next_scroll w in
        Ok (sid, take n snapshot)
           (set_next_scroll (S sid)
              (set_scrolls <[sid := ScrollCtx n (drop n snapshot)]> w))
  end).

(** [es.scroll(scroll_id=..., scroll=...)]: the next batch of the snapshot. *)
Definition es_scroll (scroll_id : nat) : M (nat * list hit) :=
  request (fun w =>
  match scrolls w !! scroll_id with
  | None => Raised NotFoundError w
  | Some c =>
      Ok (scroll_id, take (ctx_size c) (ctx_pending c))
         (set_scrolls
            <[scroll_id := ScrollCtx (ctx_size c)
                             (drop (ctx_size c) (ctx_pending c))]> w)
  end).

(** [es.clear_scroll(scroll_id=...)] *)
Definition es_clear_scroll (scroll_id : nat) : M unit :=
  request (fun w =>
  match scrolls w !! scroll_id with
  | None => Raised NotFoundError w
  | Some _ => Ok tt (set_scrolls (delete scroll_id) w)
  end).

(** One action of a bulk request: [{"_index", "_id", "_source"}]. *)
Record action := Action {
  a_index : string;
  a_id : string;
  a_source : source
}.

(** A [dense_vector] field refuses a vector of another length. *)
Definition index_accepts (ix : es_index) (src : source) : bool :=
  match dims ix, src with
  | Some d, EmbeddingSource _ v _ => bool_decide (length v = d)
  | _, _ => true
  end.

(** Index one action (an upsert keyed by [_id]); [false] when the item is
    rejected. *)
Definition index_action (a : action) (w : world) : bool * world :=
  match indices w !! a_index a with
  | Some ix =>
      if index_accepts ix (a_source a)
      then (true,
            set_indices
              <[a_index a :=
                  EsIndex (dims ix) (<[a_id a := a_source a]> (docs ix))
                    (size_in_bytes ix)]> w)
      else (false, w)
  | None => (false, w)
  end.

(** [elasticsearch.helpers.bulk(es, actions, chunk_size=...,
    raise_on_error=False)]: one request per chunk; rejected items are
    collected, a failed request raises.  [room] is what is left of the
    current chunk. *)
Fixpoint bulk_from (chunk_size room : nat) (actions : list action)
    (success_count : Z) (failed_items : list action)
    : M (Z * list action) :=
  match actions with
  | [] => mret (success_count, failed_items)
  | a :: rest =>
      let item room' : M (Z * list action) := fun w =>
        let '(ok, w') := index_action a w in
        if ok
        then bulk_from chunk_size room' rest (success_count + 1) failed_items w'
        else bulk_from chunk_size room' rest success_count
               (failed_items ++ [a]) w' in
      match room with
      | O => transport;; item (Nat.pred chunk_size)
      | S room' => item room'
      end
  end.

Definition bulk (actions : list action) (chunk_size : nat)
    : M (Z * list action) :=
  bulk_from chunk_size 0 actions 0 [].

(** [datetime.now().isoformat()] *)
Definition datetime_now : M nat := fun w =>
  Ok (clock w) (set_clock (S (clock w)) w).

(** [np.linalg.norm(v) == 0] *)
Definition norm_is_zero (v : vector) : bool :=
  forallb (fun x => Qeq_bool x 0) v.

(** [np.random.normal(0, 0.01, shape)] *)
Definition np_random_normal (shape : nat) : M vector := fun w =>
  Ok (rng w <$> seq (rng_pos w) shape) (set_rng_pos (rng_pos w + shape) w).

(* ===================================================================== *)
(** ** The scroll loop shared by the bulk readers *)
(* ===================================================================== *)

(** How the [try] block of a reader ends: normally, with the last
    [scroll_id] and what was accumulated, or by an exception raised while
    the local variable [scroll_id] had the given value ([None] before the
    first response). *)
Inductive scan_exit (A : Type) :=
| Completed (scroll_id : nat) (acc : A)
| Failed (scroll_id : option nat) (e : exn).
Arguments Completed {A} scroll_id acc.
Arguments Failed {A} scroll_id e.

(** [while len(hits) > 0: response = es.scroll(...); scroll_id = ...;
    hits = ...; if len(hits) > 0: <accumulate hits>] *)
Fixpoint scroll_loop {A} (accumulate : A -> list hit -> exn + A)
    (fuel : nat) (scroll_id : nat) (hits : list hit) (acc : A)
    : M (scan_exit A) :=
  match hits with
  | [] => mret (Completed scroll_id acc)
  | _ :: _ =>
      match fuel with
      | O => diverge
      | S fuel' =>
          response ← attempt (es_scroll scroll_id);
          match response with
          | inl e => mret (Failed (Some scroll_id) e)
          | inr (scroll_id', hits') =>
              match hits' with
              | [] => scroll_loop accumulate fuel' scroll_id' hits' acc
              | _ :: _ =>
                  match accumulate acc hits' with
                  | inl e => mret (Failed (Some scroll_id') e)
                  | inr acc' =>
                      scroll_loop accumulate fuel' scroll_id' hits' acc'
                  end
              end
          end
      end
  end.

(** [response = es.search(..., scroll='2m', size=...); scroll_id = ...;
    hits = ...; <accumulate hits>] followed by the loop. *)
Definition scroll_scan {A} (accumulate : A -> list hit -> exn + A)
    (index : string) (q : query) (size : Z) (acc0 : A) (fuel : nat)
    : M (scan_exit A) :=
  response ← attempt (es_search index q size);
  match response with
  | inl e => mret (Failed None e)
  | inr (scroll_id, hits) =>
      match accumulate acc0 hits with
      | inl e => mret (Failed (Some scroll_id) e)
      | inr acc => scroll_loop accumulate fuel scroll_id hits acc
      end
  end.

(** The end of the inner [try] and its [except Exception as scroll_error]
    clause: release the scroll, ignoring a failure to do so, and re-raise. *)
Definition release_scroll {A} (r : scan_exit A) : M A :=
  match r with
  | Completed scroll_id acc => try_pass (es_clear_scroll scroll_id);; mret acc
  | Failed (Some scroll_id) e => try_pass (es_clear_scroll scroll_id);; raise e
  | Failed None e => raise e
  end.

(* ===================================================================== *)
(** ** elasticsearch_manager.py: class ElasticsearchEmbeddingsCache *)
(* ===================================================================== *)

Record ElasticsearchEmbeddingsCache := Cache {
  host : string;
  port : Z;
  connected : bool
}.

(** [self.indices_config], in declaration order: index name and the
    [dims] of its [embedding] field, if it has one. *)
Definition indices_config : list (string * option nat) :=
  [ ("documents_dataset"%string, None);
    ("embeddings_tfidf"%string, Some 4096%nat);
    ("embeddings_word2vec"%string, Some 100%nat);
    ("embeddings_bert"%string, Some 768%nat);
    ("embeddings_sbert"%string, Some 384%nat);
    ("embeddings_openai"%string, Some 1536%nat);
    ("embeddings_test"%string, Some 100%nat);
    ("embeddings_duplicate_test"%string, Some 50%nat);
    ("embeddings_integrity_test"%string, Some 50%nat) ].

Fixpoint config_lookup (index_name : string)
    (config : list (string * option nat)) : option (option nat) :=
  match config with
  | [] => None
  | (name, mapping) :: rest =>
      if bool_decide (name = index_name) then Some mapping
      else config_lookup index_name rest
  end.

(** [_check_index_exists]: any failure of the probe reads as "no". *)
Definition _check_index_exists (index_name : string) : M bool :=
  try_except (es_indices_exists index_name) (fun _ => mret false).

(** [create_index] *)
Definition create_index (self : ElasticsearchEmbeddingsCache)
    (index_name : string) : M bool :=
  if negb (connected self) then mret false
  else
    match config_lookup index_name indices_config with
    | None => mret false
    | Some mapping =>
        try_except
          (ex ← _check_index_exists index_name;
           if ex : bool then mret true
           else es_indices_create index_name mapping;; mret true)
          (fun _ => mret false)
    end.

(** [existing_ids.extend([hit["_source"]["doc_id"] for hit in hits])] *)
Definition collect_doc_ids (existing_ids : list string) (hits : list hit)
    : exn + list string :=
  inr (existing_ids ++ ((fun h : hit => source_doc_id h.2) <$> hits)).

(** The inner [try] of [check_embeddings_exist]: the scroll over the
    records whose [doc_id] is requested, 1000 per batch. *)
Definition scan_existing_ids (index_name : string) (doc_ids : list string)
    (fuel : nat) : M (list string) :=
  scroll_scan collect_doc_ids index_name (TermsDocId doc_ids) 1000 [] fuel
    ≫= release_scroll.

(** [check_embeddings_exist]: returns
    [(todos_existem, ids_existentes, ids_faltando)]. *)
Definition check_embeddings_exist (self : ElasticsearchEmbeddingsCache)
    (index_name : string) (doc_ids : list string) (fuel : nat)
    : M (bool * list string * list string) :=
  if negb (connected self) then mret (false, [], doc_ids)
  else
    try_except
      (ex ← _check_index_exists index_name;
       if negb ex then mret (false, [], doc_ids)
       else
         existing_ids ← scan_existing_ids index_name doc_ids fuel;
         let existing_ids_set : gset string := list_to_set existing_ids in
         let missing_ids :=
           filter (fun doc_id => doc_id ∉ existing_ids_set) doc_ids in
         let all_exist := bool_decide (length missing_ids = 0%nat) in
         mret (all_exist, existing_ids, missing_ids))
      (fun _ => mret (false, [], doc_ids)).

(** [for hit in hits: doc_id_to_hash[hit["_source"]["doc_id"]] =
    hit["_source"]["metadata"]["text_hash"]] *)
Fixpoint collect_hashes (doc_id_to_hash : gmap string string)
    (hits : list hit) : exn + gmap string string :=
  match hits with
  | [] => inr doc_id_to_hash
  | h :: rest =>
      match source_metadata_text_hash h.2 with
      | inl e => inl e
      | inr stored => collect_hashes (<[source_doc_id h.2 := stored]> doc_id_to_hash) rest
      end
  end.

(** [for i, doc_id in enumerate(doc_ids): ...] of
    [validate_embeddings_integrity], from position [i] on. *)
Fixpoint validate_each (doc_id_to_hash : gmap string string) (i : nat)
    (doc_ids expected_texts invalid_ids : list string) : exn + list string :=
  match doc_ids with
  | [] => inr invalid_ids
  | doc_id :: rest =>
      match doc_id_to_hash !! doc_id with
      | Some stored_hash =>
          match expected_texts !! i with
          | None => inl IndexError
          | Some text =>
              let expected_hash := _generate_text_hash text in
              if bool_decide (expected_hash ≠ stored_hash)
              then validate_each doc_id_to_hash (S i) rest expected_texts
                     (invalid_ids ++ [doc_id])
              else validate_each doc_id_to_hash (S i) rest expected_texts
                     invalid_ids
          end
      | None =>
          validate_each doc_id_to_hash (S i) rest expected_texts
            (invalid_ids ++ [doc_id])
      end
  end.

(** The inner [try] of [validate_embeddings_integrity]. *)
Definition scan_text_hashes (index_name : string) (doc_ids : list string)
    (fuel : nat) : M (gmap string string) :=
  scroll_scan collect_hashes index_name (TermsDocId doc_ids) 1000 ∅ fuel
    ≫= release_scroll.

(** [validate_embeddings_integrity]: returns [(todos_validos, ids_invalidos)]. *)
Definition validate_embeddings_integrity (self : ElasticsearchEmbeddingsCache)
    (index_name : string) (doc_ids expected_texts : list string) (fuel : nat)
    : M (bool * list string) :=
  if negb (connected self) then mret (false, doc_ids)
  else
    try_except
      (doc_id_to_hash ← scan_text_hashes index_name doc_ids fuel;
       invalid_ids ← lift (validate_each doc_id_to_hash 0 doc_ids expected_texts []);
       let all_valid := bool_decide (length invalid_ids = 0%nat) in
       mret (all_valid, invalid_ids))
      (fun _ => mret (false, doc_ids)).

(** [l.index(x)]: position of the first occurrence. *)
Fixpoint list_index (x : string) (l : list string) : exn + nat :=
  match l with
  | [] => inl ValueError
  | y :: l' =>
      if bool_decide (y = x) then inr 0%nat
      else match list_index x l' with
           | inl e => inl e
           | inr i => inr (S i)
           end
  end.

(** [l[i]] for a position [i]. *)
Definition getitem {A} (l : list A) (i : nat) : exn + A :=
  match l !! i with
  | Some a => inr a
  | None => inl IndexError
  end.

(** [[texts[doc_ids.index(doc_id)] for doc_id in existing_ids]] *)
Fixpoint texts_of (doc_ids texts existing_ids : list string)
    : exn + list string :=
  match existing_ids with
  | [] => inr []
  | doc_id :: rest =>
      match list_index doc_id doc_ids with
      | inl e => inl e
      | inr idx =>
          match getitem texts idx with
          | inl e => inl e
          | inr text =>
              match texts_of doc_ids texts rest with
              | inl e => inl e
              | inr ts => inr (text :: ts)
              end
          end
      end
  end.

(** A two-dimensional array [(n_docs, n_dims)]. *)
Record ndarray := NdArray {
  shape1 : Z;
  rows : list vector
}.

(** [for doc_id in missing_ids: ... bulk_data.append(...)] of
    [save_embeddings]. *)
Fixpoint build_bulk_data (index_name : string) (embeddings : ndarray)
    (doc_ids texts : list string) (model_type model_version : string)
    (current_time : nat) (missing_ids : list string)
    (bulk_data : list action) : M (list action) :=
  match missing_ids with
  | [] => mret bulk_data
  | doc_id :: rest =>
      idx ← lift (list_index doc_id doc_ids);
      text ← lift (getitem texts idx);
      let text_hash := _generate_text_hash text in
      row ← lift (getitem (rows embeddings) idx);
      embedding_vector ←
        (if norm_is_zero row then np_random_normal (length row)
         else mret row);
      let doc :=
        EmbeddingSource doc_id embedding_vector
          (Metadata model_type model_version current_time
             (shape1 embeddings) text_hash) in
      build_bulk_data index_name embeddings doc_ids texts model_type
        model_version current_time rest
        (bulk_data ++ [Action index_name doc_id doc])
  end.

(** [save_embeddings].  [missing_ids.extend(invalid_ids)] appends to the
    list the check returned; that list is the caller's [doc_ids] only on
    the fallback of the check, where [existing_ids] is empty and nothing
    is appended. *)
Definition save_embeddings (self : ElasticsearchEmbeddingsCache)
    (index_name : string) (embeddings : ndarray)
    (doc_ids texts : list string) (model_type model_version : string)
    (fuel : nat) : M bool :=
  if negb (connected self) then mret false
  else
    created ← create_index self index_name;
    if negb created then mret false
    else
      try_except
        ('(all_exist, existing_ids, missing_ids) ←
           check_embeddings_exist self index_name doc_ids fuel;
         if all_exist : bool then mret true
         else
           missing_ids ←
             match existing_ids with
             | [] => mret missing_ids
             | _ :: _ =>
                 existing_texts ← lift (texts_of doc_ids texts existing_ids);
                 '(valid, invalid_ids) ←
                   validate_embeddings_integrity self index_name
                     existing_ids existing_texts fuel;
                 if negb valid then mret (missing_ids ++ invalid_ids)
                 else mret missing_ids
             end;
           match missing_ids with
           | [] => mret true
           | _ :: _ =>
               current_time ← datetime_now;
               bulk_data ←
                 build_bulk_data index_name embeddings doc_ids texts
                   model_type model_version current_time missing_ids [];
               '(success_count, failed_items) ← bulk bulk_data 1000;
               match failed_items with
               | _ :: _ => mret false
               | [] => mret (0 <? success_count)
               end
           end)
        (fun _ => mret false).

(** One entry of [status["indices"]]. *)
Record index_status := IndexStatus {
  st_exists : bool;
  st_doc_count : Z;
  st_size_mb : Q
}.

(** The dict returned by [get_cache_status]. *)
Inductive cache_status :=
| StatusDisconnected                  (* [{"connected": False, "error": ...}] *)
| StatusError (e : exn)               (* [{"connected": True, "error": ...}] *)
| StatusReport (entries : list (string * index_status))
    (total_docs : Z) (total_size_mb : Q).

(** [round(x)], ties to even. *)
Definition round_half_even (q : Q) : Z :=
  let f := Qfloor q in
  match Qcompare (q - inject_Z f) (1 # 2) with
  | Lt => f
  | Gt => f + 1
  | Eq => if Z.even f then f else f + 1
  end.

(** [round(x, 2)], without the representation error of floats. *)
Definition round2 (q : Q) : Q :=
  (inject_Z (round_half_even (q * 100)) / 100)%Q.

(** [for index_name in self.indices_config.keys(): ...] of
    [get_cache_status]. *)
Fixpoint status_loop (names : list string)
    (entries : list (string * index_status)) (total_docs : Z)
    (total_size_mb : Q) : M (list (string * index_status) * Z * Q) :=
  match names with
  | [] => mret (entries, total_docs, total_size_mb)
  | index_name :: rest =>
      ex ← _check_index_exists index_name;
      if ex : bool then
        doc_count ← es_count index_name;
        size_bytes ← es_indices_stats index_name;
        let size_mb := (inject_Z size_bytes / inject_Z (1024 * 1024))%Q in
        status_loop rest
          (entries ++ [(index_name, IndexStatus true doc_count (round2 size_mb))])
          (total_docs + doc_count) (total_size_mb + size_mb)%Q
      else
        status_loop rest
          (entries ++ [(index_name, IndexStatus false 0 0%Q)])
          total_docs total_size_mb
  end.

(** [get_cache_status]; the keys [connected] and [host] of the report
    are left out. *)
Definition get_cache_status (self : ElasticsearchEmbeddingsCache)
    : M cache_status :=
  if negb (connected self) then mret StatusDisconnected
  else
    try_except
      ('(entries, total_docs, total_size_mb) ←
         status_loop (indices_config.*1) [] 0 0%Q;
       mret (StatusReport entries total_docs (round2 total_size_mb)))
      (fun e => mret (StatusError e)).

(* ===================================================================== *)
(** ** src/elasticsearch_helpers.py *)
(* ===================================================================== *)

(** A data frame: its columns and its rows. *)
Record DataFrame := MkDataFrame {
  columns : list string;
  df_rows : list doc_row
}.

(** [pd.DataFrame(documents_data)]: the columns are the keys of the
    dicts, so a frame built from no dict has no column. *)
Definition pd_DataFrame (documents_data : list doc_row) : DataFrame :=
  match documents_data with
  | [] => MkDataFrame [] []
  | _ :: _ =>
      MkDataFrame ["doc_id"; "text"; "category"; "target"]%string
        documents_data
  end.

(** Order of Python strings. *)
Definition doc_id_le (a b : doc_row) : Prop :=
  String.leb (row_doc_id a) (row_doc_id b).

#[global] Instance doc_id_le_dec : RelDecision doc_id_le.
Proof. intros a b. unfold doc_id_le. apply _. Defined.

(** [df.sort_values('doc_id').reset_index(drop=True)] *)
Definition sort_values_doc_id (df : DataFrame) : exn + DataFrame :=
  if bool_decide ("doc_id"%string ∈ columns df)
  then inr (MkDataFrame (columns df) (merge_sort doc_id_le (df_rows df)))
  else inl (KeyError "doc_id").

(** [for hit in all_documents: documents_data.append({...})] *)
Fixpoint documents_data_of (all_documents : list hit) : exn + list doc_row :=
  match all_documents with
  | [] => inr []
  | h :: rest =>
      match source_row h.2 with
      | inl e => inl e
      | inr r =>
          match documents_data_of rest with
          | inl e => inl e
          | inr rs => inr (r :: rs)
          end
      end
  end.

(** [all_documents.extend(hits)] *)
Definition collect_hits (all_documents : list hit) (hits : list hit)
    : exn + list hit :=
  inr (all_documents ++ hits).

(** Steps 1 and 2 of [load_all_documents_from_elasticsearch]. *)
Definition load_all_documents_scan (index_name : string) (batch_size : Z)
    (fuel : nat) : M (scan_exit (list hit)) :=
  scroll_scan collect_hits index_name MatchAll batch_size [] fuel.

(** Step 4: the hits as a frame sorted by [doc_id]. *)
Definition documents_frame (all_documents : list hit) : exn + DataFrame :=
  match documents_data_of all_documents with
  | inl e => inl e
  | inr documents_data => sort_values_doc_id (pd_DataFrame documents_data)
  end.

(** [load_all_documents_from_elasticsearch]: one [try] around the scan,
    the release of the scroll and the conversion; its handler releases
    the scroll (again, if the conversion failed) and re-raises.  The
    client [es_client] is the world; [scroll_timeout] and [verbose] do
    not change what is returned. *)
Definition load_all_documents_from_elasticsearch (index_name : string)
    (batch_size : Z) (fuel : nat) : M DataFrame :=
  r ← load_all_documents_scan index_name batch_size fuel;
  match r with
  | Failed (Some scroll_id) e => try_pass (es_clear_scroll scroll_id);; raise e
  | Failed None e => raise e
  | Completed scroll_id all_documents =>
      try_pass (es_clear_scroll scroll_id);;
      match documents_frame all_documents with
      | inl e => try_pass (es_clear_scroll scroll_id);; raise e
      | inr df => mret df
      end
  end.

(* ===================================================================== *)
(** ** Notions used in the statements *)
(* ===================================================================== *)

(** No coming request is scheduled to fail. *)
Definition healthy (w : world) : Prop := Forall (fun b => b = false) (faults w).

(** Whether the next request fails, and the world once it has been sent. *)
Definition next_fails (w : world) : bool := default false (head (faults w)).

Definition after_request (w : world) : world := set_faults (tail (faults w)) w.

(** A computation that leaves the stored records and the clock alone and
    schedules no new failure. *)
Definition reads {A} (m : M A) : Prop :=
  forall w,
    match m w with
    | Ok _ w' | Raised _ w' =>
        indices w' = indices w /\ clock w' = clock w
        /\ (healthy w -> healthy w')
    | OutOfFuel => True
    end.

(** Fuel that lets a scroll over an index run to its end: one round per
    record and one for the empty batch. *)
Definition scan_fuel (w : world) (index_name : string) : nat :=
  match indices w !! index_name with
  | Some ix => S (size (docs ix))
  | None => 1
  end.

(** Reading a zero-padded decimal string back. *)
Definition decode (s : string) : option N :=
  N.of_uint <$> NilEmpty.uint_of_string s.

(** The requested ids that an enumeration did not yield. *)
Definition missing_of (doc_ids existing_ids : list string) : list string :=
  filter (fun doc_id => doc_id ∉ existing_ids) doc_ids.

(** The existence check cannot complete: no connection, no such
    collection, a failed probe, or an error raised by the scan. *)
Definition incomplete_check (self : ElasticsearchEmbeddingsCache)
    (index_name : string) (doc_ids : list string) (fuel : nat) (w : world)
    : Prop :=
  connected self = false
  \/ indices w !! index_name = None
  \/ (exists w1, _check_index_exists index_name w = Ok false w1)
  \/ (exists w1 e w2,
        _check_index_exists index_name w = Ok true w1
        /\ scan_existing_ids index_name doc_ids fuel w1 = Raised e w2).

Definition is_embedding (src : source) : Prop :=
  match src with
  | EmbeddingSource _ _ _ => True
  | DocumentSource _ _ _ _ _ _ => False
  end.

#[global] Instance is_embedding_dec src : Decision (is_embedding src).
Proof. destruct src; apply _. Defined.

Definition stored_hash (src : source) : string :=
  match src with
  | EmbeddingSource _ _ m => text_hash m
  | DocumentSource _ _ _ _ h _ => h
  end.

(** The dict a scan of embedding records builds, batch after batch. *)
Definition record_hashes (m : gmap string string) (hits : list hit)
    : gmap string string :=
  foldl (fun m (h : hit) => <[source_doc_id h.2 := stored_hash h.2]> m) m hits.

(** An id and its paired text fail validation against the scanned
    fingerprints: no record was returned for the id, or the fingerprint
    of the text is not the stored one. *)
Definition mismatch (m : gmap string string) (p : string * string) : Prop :=
  match m !! p.1 with
  | None => True
  | Some stored => _generate_text_hash p.2 <> stored
  end.

#[global] Instance mismatch_dec m p : Decision (mismatch m p).
Proof. unfold mismatch. destruct (m !! p.1); apply _. Defined.

(** Following the spec's words for the Integrity Validator: the ids,
    paired by position with the texts, that are mismatched or absent. *)
Definition invalid_of (m : gmap string string) (doc_ids texts : list string)
    : list string :=
  (filter (mismatch m) (zip doc_ids texts)).*1.

(** The collection holds a record for [doc_id], and every record it holds
    for [doc_id] carries the fingerprint of [text]. *)
Definition stamped (ix : es_index) (doc_id text : string) : Prop :=
  (exists k src, docs ix !! k = Some src /\ source_doc_id src = doc_id)
  /\ forall k src,
       docs ix !! k = Some src -> source_doc_id src = doc_id ->
       source_metadata_text_hash src = inr (_generate_text_hash text).

(** Every record is stored under its own [doc_id], as [save_dataset] and
    [save_embeddings] write them ([_id] is [doc_id]). *)
Definition keyed (ix : es_index) : Prop :=
  map_Forall (fun k src => source_doc_id src = k) (docs ix).

Definition well_keyed (w : world) (index_name : string) : Prop :=
  forall ix, indices w !! index_name = Some ix -> keyed ix.

(** The collection exists, is keyed, and holds every id of the batch. *)
Definition covers (w : world) (index_name : string) (doc_ids : list string)
    : Prop :=
  exists ix,
    indices w !! index_name = Some ix /\ keyed ix
    /\ forall doc_id, doc_id ∈ doc_ids -> is_Some (docs ix !! doc_id).

(** An action as [save_embeddings] prepares it. *)
Definition action_for (index_name : string) (a : action) : Prop :=
  a_index a = index_name /\ source_doc_id (a_source a) = a_id a.

(** Some record of the collection carries the id. *)
Definition stored_under (w : world) (index_name : string) (x : string)
    : Prop :=
  exists ix k src,
    indices w !! index_name = Some ix /\ docs ix !! k = Some src
    /\ source_doc_id src = x.

(** The status report has an entry for the collection. *)
Definition reports (r : cache_status) (index_name : string) : Prop :=
  exists entries total_docs total_size_mb st,
    r = StatusReport entries total_docs total_size_mb
    /\ (index_name, st) ∈ entries.

(** The two reads [get_cache_status] makes for a collection that exists. *)
Definition read_stats (index_name : string) : M (Z * Z) :=
  doc_count ← es_count index_name;
  size_bytes ← es_indices_stats index_name;
  mret (doc_count, size_bytes).

Definition outcome_value {A} (o : outcome A) : option A :=
  match o with
  | Ok a _ => Some a
  | _ => None
  end.

Definition outcome_world {A} (o : outcome A) (w : world) : world :=
  match o with
  | Ok _ w' | Raised _ w' => w'
  | OutOfFuel => w
  end.

(** Every record the collection holds for [doc_id] carries the
    fingerprint [h], and there is such a record. *)
Definition fingerprinted (ix : es_index) (doc_id h : string) : Prop :=
  (exists k src, docs ix !! k = Some src /\ source_doc_id src = doc_id)
  /\ forall k src,
       docs ix !! k = Some src -> source_doc_id src = doc_id ->
       source_metadata_text_hash src = inr h.

(** In a collection keyed by [doc_id]: the id has no record, or the
    fingerprint of the paired text is not the one of its record. *)
Definition stale (ix : es_index) (p : string * string) : Prop :=
  match docs ix !! p.1 with
  | None => True
  | Some src => _generate_text_hash p.2 <> stored_hash src
  end.

#[global] Instance stale_dec ix p : Decision (stale ix p).
Proof. unfold stale. destruct (docs ix !! p.1); apply _. Defined.

(* ===================================================================== *)
(** ** Concrete worlds and inputs *)
(* ===================================================================== *)

Definition client : ElasticsearchEmbeddingsCache := Cache "localhost" 9200 true.

Definition offline_client : ElasticsearchEmbeddingsCache :=
  Cache "localhost" 9200 false.

(** A backend without any index, the generator producing ones. *)
Definition empty_world : world := World ∅ ∅ 0 [] 0 (fun _ => 1%Q) 0.

(** Two distinct printable texts with the same MD5 digest. *)
Definition collision_a : string :=
  "TEXTCOLLBYfGiJUETHQ4hAcKSMd5zYpgqf1YRDhkmxHkhPWptrkoyz28wnI9V0aHeAuaKnak".

Definition collision_b : string :=
  "TEXTCOLLBYfGiJUETHQ4hEcKSMd5zYpgqf1YRDhkmxHkhPWptrkoyz28wnI9V0aHeAuaKnak".

Definition ones : ndarray := NdArray 50 [replicate 50 1%Q; replicate 50 1%Q].

(** The world after [save_embeddings] wrote one record stamped with the
    fingerprint of [collision_a]. *)
Definition stamped_world : world :=
  outcome_world
    (save_embeddings client "embeddings_integrity_test" ones
       ["doc_integrity_001"%string] [collision_a] "test_model" "1.0" 2
       empty_world) empty_world.

Definition stamped_index : es_index :=
  default (EsIndex None ∅ 0)
    (indices stamped_world !! "embeddings_integrity_test"%string).

(** The world after [save_embeddings] wrote two records. *)
Definition synced_world : world :=
  outcome_world
    (save_embeddings client "embeddings_duplicate_test" ones
       ["doc_test_001"; "doc_test_002"]%string ["first"; "second"]%string
       "test_model" "1.0" 3 empty_world) empty_world.

(** The row the loader builds for the document at a position. *)
Definition positional_row (i : Z) : doc_row :=
  DocRow (_generate_doc_id i) "text" "category" 0.

Definition dataset_row (i : nat) : string * source :=
  let doc_id := _generate_doc_id (Z.of_nat i) in
  (doc_id, DocumentSource doc_id "text" "category" 0 "" 0).

Definition dataset_docs (n : nat) : gmap string source :=
  list_to_map (dataset_row <$> seq 0 n).

(** [documents_dataset] holding [n] rows, with a fault schedule. *)
Definition dataset_world (n : nat) (fs : list bool) : world :=
  World {[ "documents_dataset"%string := EsIndex None (dataset_docs n) 0 ]}
    ∅ 0 fs 0 (fun _ => 1%Q) 0.

(** The collection exists and holds no record. *)
Definition empty_dataset_world : world := dataset_world 0 [].

(** The collection exists; the second request (its count) fails. *)
Definition count_fails_world : world := dataset_world 3 [false; true].

(** The collection exists; the second request (the search) fails. *)
Definition search_fails_world : world := dataset_world 3 [false; true].

(** The collection [save_embeddings] filled in [synced_world]. *)
Definition synced_index : es_index :=
  default (EsIndex None ∅ 0)
    (indices synced_world !! "embeddings_duplicate_test"%string).

(** A collection whose only record is stored under the [_id]
    [doc_test_001] and carries the [doc_id] [doc_test_002]. *)
Definition misfiled_world : world :=
  World
    {[ "embeddings_duplicate_test"%string :=
         EsIndex (Some 50%nat)
           {[ "doc_test_001"%string :=
                EmbeddingSource "doc_test_002" (replicate 50 1%Q)
                  (Metadata "test_model" "1.0" 0 50
                     (_generate_text_hash "second")) ]} 0 ]}
    ∅ 0 [] 1 (fun _ => 1%Q) 0.

(** The world after a first [save_embeddings] of the two-record batch on
    [misfiled_world], and after a second one. *)
Definition misfiled_once : world :=
  outcome_world
    (save_embeddings client "embeddings_duplicate_test" ones
       ["doc_test_001"; "doc_test_002"]%string ["first"; "second"]%string
       "test_model" "1.0" 3 misfiled_world) misfiled_world.

Definition misfiled_twice : world :=
  outcome_world
    (save_embeddings client "embeddings_duplicate_test" ones
       ["doc_test_001"; "doc_test_002"]%string ["first"; "second"]%string
       "test_model" "1.0" 3 misfiled_once) misfiled_once.

(* ===================================================================== *)
(** * Properties *)
(* ===================================================================== *)

(* --------------------------------------------------------------------- *)
(** ** Identifiers *)
(* --------------------------------------------------------------------- *)

Lemma decode_zeros n s : decode (String.append (zeros n) s) = decode s.
Proof.
  unfold decode. induction n as [|n IH]; simpl; [done|].
  destruct (NilEmpty.uint_of_string (String.append (zeros n) s)) as [d|] eqn:E;
    destruct (NilEmpty.uint_of_string s) as [d'|] eqn:E'; simpl in *; congruence.
Qed.

Lemma decode_digits n : decode (digits n) = Some n.
Proof.
  unfold decode, digits. rewrite NilEmpty.usu. simpl.
  by rewrite DecimalN.Unsigned.of_to.
Qed.

Lemma decode_zfill width n : decode (zfill width (digits n)) = Some n.
Proof. unfold zfill. by rewrite decode_zeros, decode_digits. Qed.

Lemma format_04d_nonneg i : 0 <= i -> decode (format_04d i) = Some (Z.to_N i).
Proof.
  intros Hi. unfold format_04d.
  destruct (Z.ltb_spec i 0); [lia|]. apply decode_zfill.
Qed.

Lemma append_inj (p a b : string) :
  String.append p a = String.append p b -> a = b.
Proof. induction p as [|c p IH]; simpl; [done|]. intros [= H]. auto. Qed.

Lemma generate_doc_id_inj i j :
  0 <= i -> 0 <= j -> _generate_doc_id i = _generate_doc_id j -> i = j.
Proof.
  intros Hi Hj H. unfold _generate_doc_id in H.
  apply append_inj in H.
  apply (f_equal decode) in H. rewrite !format_04d_nonneg in H by done.
  injection H as H. by apply Z2N.inj.
Qed.

(** C9.  Identifier generation is injective on non-negative positions:
    two distinct positions never get the same identifier (padding to four
    digits widens, it never truncates).  It does not preserve order: the
    identifier of position 10000 comes before the identifier of position
    2000 in the order on strings, so the loader's sort by [doc_id] puts
    the row of position 10000 first. *)
Theorem doc_id_injective_not_order_preserving (i j : Z) :
  0 <= i -> 0 <= j -> i <> j ->
  _generate_doc_id i <> _generate_doc_id j
  /\ (2000 < 10000
      /\ String.ltb (_generate_doc_id 10000) (_generate_doc_id 2000) = true)
  /\ sort_values_doc_id
       (pd_DataFrame [positional_row 2000; positional_row 10000])
     = inr (MkDataFrame ["doc_id"; "text"; "category"; "target"]%string
              [positional_row 10000; positional_row 2000]).
Proof.
  intros Hi Hj Hne. split; [|split].
  - intros H. apply Hne. by apply generate_doc_id_inj.
  - split; [lia|]. vm_compute. reflexivity.
  - vm_compute. reflexivity.
Qed.

Lemma doc_id_injective_witness :
  (0 <= 9999 /\ 0 <= 10000 /\ 9999 <> 10000)
  /\ _generate_doc_id 9999 <> _generate_doc_id 10000.
Proof.
  split; [lia|].
  apply (doc_id_injective_not_order_preserving 9999 10000); lia.
Defined.

(* --------------------------------------------------------------------- *)
(** ** The monad and read-only computations *)
(* --------------------------------------------------------------------- *)

Lemma bind_eq {A B} (m : M A) (f : A -> M B) w :
  (m ≫= f) w =
  match m w with
  | Ok a w' => f a w'
  | Raised e w' => Raised e w'
  | OutOfFuel => OutOfFuel
  end.
Proof. reflexivity. Qed.

Lemma transport_eq w :
  transport w =
  if next_fails w then Raised ConnectionError (after_request w)
  else Ok tt (after_request w).
Proof. destruct w as [i s n [|[] fs] c r p]; reflexivity. Qed.

Lemma request_eq {A} (reply : world -> outcome A) w :
  request reply w =
  if next_fails w then Raised ConnectionError (after_request w)
  else reply (after_request w).
Proof.
  unfold request. rewrite bind_eq, transport_eq. by destruct (next_fails w).
Qed.

Lemma healthy_next w : healthy w -> next_fails w = false.
Proof.
  unfold healthy, next_fails. destruct (faults w) as [|b fs]; [done|].
  intros H. by inversion H.
Qed.

Lemma healthy_after w : healthy w -> healthy (after_request w).
Proof.
  unfold healthy, after_request. simpl.
  destruct (faults w) as [|b fs]; [done|]. intros H. by inversion H.
Qed.

Lemma request_healthy {A} (reply : world -> outcome A) w :
  healthy w -> request reply w = reply (after_request w).
Proof. intros H. by rewrite request_eq, healthy_next. Qed.

(* reads *)
Lemma reads_ret {A} (a : A) : reads (mret a).
Proof. intros w. by simpl. Qed.

Lemma reads_raise {A} e : reads (@raise A e).
Proof. intros w. by simpl. Qed.

Lemma reads_diverge {A} : reads (@diverge A).
Proof. intros w. by simpl. Qed.

Lemma reads_bind {A B} (m : M A) (f : A -> M B) :
  reads m -> (forall a, reads (f a)) -> reads (m ≫= f).
Proof.
  intros Hm Hf w. rewrite bind_eq. specialize (Hm w).
  destruct (m w) as [a w1|e w1|]; [|done..].
  specialize (Hf a w1). destruct (f a w1) as [b w2|e w2|]; [| |done];
    (destruct Hm as (E1 & C1 & Hm), Hf as (E2 & C2 & Hf);
     split_and!; [congruence|congruence|auto]).
Qed.

Lemma reads_try_except {A} (m : M A) h :
  reads m -> (forall e, reads (h e)) -> reads (try_except m h).
Proof.
  intros Hm Hh w. unfold try_except. specialize (Hm w).
  destruct (m w) as [a w1|e w1|]; [done| |done].
  specialize (Hh e w1). destruct (h e w1) as [b w2|e2 w2|]; [| |done];
    (destruct Hm as (E1 & C1 & Hm), Hh as (E2 & C2 & Hh);
     split_and!; [congruence|congruence|auto]).
Qed.

Lemma reads_fmap {A B} (f : A -> B) (m : M A) : reads m -> reads (f <$> m).
Proof. intros Hm. apply reads_bind; [done|]. intros a. apply reads_ret. Qed.

Lemma reads_attempt {A} (m : M A) : reads m -> reads (attempt m).
Proof.
  intros Hm. apply reads_try_except; [by apply reads_fmap|].
  intros e. apply reads_ret.
Qed.

Lemma reads_try_pass m : reads m -> reads (try_pass m).
Proof. intros Hm. apply reads_try_except; [done|]. intros e. apply reads_ret. Qed.

Lemma reads_lift {A} (r : exn + A) : reads (lift r).
Proof. destruct r; [apply reads_raise|apply reads_ret]. Qed.

Lemma reads_request {A} (reply : world -> outcome A) :
  (forall w, match reply w with
             | Ok _ w' | Raised _ w' =>
                 indices w' = indices w /\ clock w' = clock w
                 /\ faults w' = faults w
             | OutOfFuel => True
             end) ->
  reads (request reply).
Proof.
  intros Hr w. rewrite request_eq. destruct (next_fails w).
  - split_and!; [done|done|apply healthy_after].
  - specialize (Hr (after_request w)).
    destruct (reply (after_request w)) as [a w'|e w'|]; [| |done];
      destruct Hr as (E & C & Hf); (split_and!; [by rewrite E|by rewrite C|]);
      intros H;
      apply healthy_after in H; unfold healthy in *; by rewrite Hf.
Qed.

Lemma reads_es_indices_exists index : reads (es_indices_exists index).
Proof. apply reads_request. by intros w. Qed.

Lemma reads_es_count index : reads (es_count index).
Proof. apply reads_request. intros w. by destruct (indices w !! index). Qed.

Lemma reads_es_indices_stats index : reads (es_indices_stats index).
Proof. apply reads_request. intros w. by destruct (indices w !! index). Qed.

Lemma reads_es_search index q size : reads (es_search index q size).
Proof.
  apply reads_request. intros w. destruct (indices w !! index); [|done].
  by destruct (_ || _).
Qed.

Lemma reads_es_scroll sid : reads (es_scroll sid).
Proof. apply reads_request. intros w. by destruct (scrolls w !! sid). Qed.

Lemma reads_es_clear_scroll sid : reads (es_clear_scroll sid).
Proof. apply reads_request. intros w. by destruct (scrolls w !! sid). Qed.

Lemma reads_check_index_exists index : reads (_check_index_exists index).
Proof.
  apply reads_try_except; [apply reads_es_indices_exists|].
  intros e. apply reads_ret.
Qed.

Lemma reads_scroll_loop {A} (accumulate : A -> list hit -> exn + A) fuel :
  forall sid hits acc, reads (scroll_loop accumulate fuel sid hits acc).
Proof.
  induction fuel as [|fuel IH]; intros sid hits acc; destruct hits as [|h hits];
    simpl; try apply reads_ret; try apply reads_diverge.
  apply reads_bind; [apply reads_attempt, reads_es_scroll|].
  intros [e|[sid' [|h' hits']]]; [apply reads_ret|apply IH|].
  destruct (accumulate acc (h' :: hits')); [apply reads_ret|apply IH].
Qed.

Lemma reads_scroll_scan {A} (accumulate : A -> list hit -> exn + A)
    index q size acc0 fuel :
  reads (scroll_scan accumulate index q size acc0 fuel).
Proof.
  unfold scroll_scan. apply reads_bind; [apply reads_attempt, reads_es_search|].
  intros [e|[sid hits]]; [apply reads_ret|].
  destruct (accumulate acc0 hits); [apply reads_ret|apply reads_scroll_loop].
Qed.

Lemma reads_release_scroll {A} (r : scan_exit A) : reads (release_scroll r).
Proof.
  destruct r as [sid acc|[sid|] e]; simpl; try apply reads_raise;
    (apply reads_bind; [apply reads_try_pass, reads_es_clear_scroll|]);
    intros _; [apply reads_ret|apply reads_raise].
Qed.

Lemma reads_scan_existing_ids index ids fuel :
  reads (scan_existing_ids index ids fuel).
Proof.
  apply reads_bind; [apply reads_scroll_scan|]. apply reads_release_scroll.
Qed.

Lemma reads_scan_text_hashes index ids fuel :
  reads (scan_text_hashes index ids fuel).
Proof.
  apply reads_bind; [apply reads_scroll_scan|]. apply reads_release_scroll.
Qed.

Lemma reads_check_embeddings_exist self index ids fuel :
  reads (check_embeddings_exist self index ids fuel).
Proof.
  unfold check_embeddings_exist. destruct (negb _); [apply reads_ret|].
  apply reads_try_except; [|intros e; apply reads_ret].
  apply reads_bind; [apply reads_check_index_exists|].
  intros ex. destruct (negb ex); [apply reads_ret|].
  apply reads_bind; [apply reads_scan_existing_ids|].
  intros existing. apply reads_ret.
Qed.

Lemma reads_validate self index ids texts fuel :
  reads (validate_embeddings_integrity self index ids texts fuel).
Proof.
  unfold validate_embeddings_integrity. destruct (negb _); [apply reads_ret|].
  apply reads_try_except; [|intros e; apply reads_ret].
  apply reads_bind; [apply reads_scan_text_hashes|].
  intros m. apply reads_bind; [apply reads_lift|].
  intros inv. apply reads_ret.
Qed.

(* --------------------------------------------------------------------- *)
(** ** The scroll loop *)
(* --------------------------------------------------------------------- *)

Lemma reads_Ok {A} (m : M A) w a w' :
  reads m -> m w = Ok a w' ->
  indices w' = indices w /\ clock w' = clock w /\ (healthy w -> healthy w').
Proof. intros H E. specialize (H w). by rewrite E in H. Qed.

Lemma reads_Raised {A} (m : M A) w e w' :
  reads m -> m w = Raised e w' ->
  indices w' = indices w /\ clock w' = clock w /\ (healthy w -> healthy w').
Proof. intros H E. specialize (H w). by rewrite E in H. Qed.

Lemma attempt_eq {A} (m : M A) w :
  attempt m w =
  match m w with
  | Ok a w' => Ok (inr a) w'
  | Raised e w' => Ok (inl e) w'
  | OutOfFuel => OutOfFuel
  end.
Proof.
  unfold attempt, try_except, fmap, M_fmap. rewrite bind_eq.
  by destruct (m w).
Qed.

Lemma es_scroll_eq sid w :
  es_scroll sid w =
  if next_fails w then Raised ConnectionError (after_request w)
  else match scrolls w !! sid with
       | None => Raised NotFoundError (after_request w)
       | Some c =>
           Ok (sid, take (ctx_size c) (ctx_pending c))
             (set_scrolls
                <[sid := ScrollCtx (ctx_size c)
                           (drop (ctx_size c) (ctx_pending c))]>
                (after_request w))
       end.
Proof. unfold es_scroll. by rewrite request_eq. Qed.

Lemma es_search_eq index q size w :
  es_search index q size w =
  if next_fails w then Raised ConnectionError (after_request w)
  else match indices w !! index with
       | None => Raised NotFoundError (after_request w)
       | Some ix =>
           if (size <=? 0) || (max_result_window <? size)
           then Raised BadRequestError (after_request w)
           else
             Ok (next_scroll w, take (Z.to_nat size) (snapshot_of ix q))
               (set_next_scroll (S (next_scroll w))
                  (set_scrolls
                     <[next_scroll w :=
                         ScrollCtx (Z.to_nat size)
                           (drop (Z.to_nat size) (snapshot_of ix q))]>
                     (after_request w)))
       end.
Proof. unfold es_search. by rewrite request_eq. Qed.

Lemma scroll_loop_nil {A} (accumulate : A -> list hit -> exn + A) fuel sid acc w :
  scroll_loop accumulate fuel sid [] acc w = Ok (Completed sid acc) w.
Proof. by destruct fuel. Qed.

Lemma scroll_loop_step {A} (accumulate : A -> list hit -> exn + A)
    fuel sid h hits acc w :
  scroll_loop accumulate (S fuel) sid (h :: hits) acc w =
  match es_scroll sid w with
  | Ok (sid', hits') w' =>
      match hits' with
      | [] => Ok (Completed sid' acc) w'
      | _ :: _ =>
          match accumulate acc hits' with
          | inl e => Ok (Failed (Some sid') e) w'
          | inr acc' => scroll_loop accumulate fuel sid' hits' acc' w'
          end
      end
  | Raised e w' => Ok (Failed (Some sid) e) w'
  | OutOfFuel => OutOfFuel
  end.
Proof.
  simpl. rewrite bind_eq, attempt_eq.
  destruct (es_scroll sid w) as [[sid' [|h' hits']] w'|e w'|]; try done.
  - by rewrite scroll_loop_nil.
  - by destruct (accumulate acc (h' :: hits')).
Qed.

Lemma scroll_scan_eq {A} (accumulate : A -> list hit -> exn + A)
    index q size acc0 fuel w :
  scroll_scan accumulate index q size acc0 fuel w =
  match es_search index q size w with
  | Ok (sid, hits) w' =>
      match accumulate acc0 hits with
      | inl e => Ok (Failed (Some sid) e) w'
      | inr acc => scroll_loop accumulate fuel sid hits acc w'
      end
  | Raised e w' => Ok (Failed None e) w'
  | OutOfFuel => OutOfFuel
  end.
Proof.
  unfold scroll_scan. rewrite bind_eq, attempt_eq.
  destruct (es_search index q size w) as [[sid hits] w'|e w'|]; try done.
  by destruct (accumulate acc0 hits).
Qed.

Lemma take_nil_inv {X} (n : nat) (l : list X) : (0 < n)%nat -> take n l = [] -> l = [].
Proof. destruct n, l; simpl; intros; try done; lia. Qed.

Section Complete.
Context {A : Type} (accumulate : A -> list hit -> exn + A).
Context (g : A -> list hit -> A) (P : hit -> Prop).
Hypothesis acc_ok :
  forall acc hits, Forall P hits -> accumulate acc hits = inr (g acc hits).
Hypothesis g_nil : forall acc, g acc [] = acc.
Hypothesis g_app : forall acc h1 h2, g acc (h1 ++ h2) = g (g acc h1) h2.

Lemma scroll_loop_complete fuel :
  forall sid n pending hits acc w,
    healthy w -> scrolls w !! sid = Some (ScrollCtx n pending) ->
    (0 < n)%nat -> (hits = [] -> pending = []) -> Forall P pending ->
    (length pending < fuel)%nat ->
    exists w',
      scroll_loop accumulate fuel sid hits acc w
      = Ok (Completed sid (g acc pending)) w'.
Proof.
  induction fuel as [|fuel IH]; intros sid n pending hits acc w Hw Hc Hn Hh HP Hf;
    [lia|].
  destruct hits as [|h hits].
  { rewrite Hh by done. rewrite g_nil, scroll_loop_nil. eauto. }
  rewrite scroll_loop_step, es_scroll_eq, healthy_next, Hc by done. simpl.
  destruct (take n pending) as [|h' hits'] eqn:Et.
  { apply take_nil_inv in Et as ->; [|done]. rewrite g_nil. eauto. }
  assert (Forall P (h' :: hits')) as HP'.
  { rewrite <-Et. by apply Forall_take. }
  rewrite (acc_ok _ _ HP').
  match goal with
  | |- context [scroll_loop _ _ _ _ _ ?w1] =>
      destruct (IH sid n (drop n pending) (h' :: hits')
                  (g acc (h' :: hits')) w1) as [w' Hw'];
        [| |done|done| | |]
  end.
  - by apply healthy_after in Hw.
  - simpl. apply lookup_insert_eq.
  - by apply Forall_drop.
  - rewrite length_drop. destruct pending; [by rewrite take_nil in Et|].
    simpl in *. lia.
  - exists w'. rewrite Hw'. rewrite <-g_app, <-Et, take_drop. done.
Qed.

Lemma scroll_scan_complete index q size acc0 fuel w ix :
  healthy w -> indices w !! index = Some ix ->
  0 < size <= max_result_window ->
  Forall P (snapshot_of ix q) ->
  (length (snapshot_of ix q) < fuel)%nat ->
  exists sid w',
    scroll_scan accumulate index q size acc0 fuel w
    = Ok (Completed sid (g acc0 (snapshot_of ix q))) w'.
Proof.
  intros Hw Hix Hsize HP Hf.
  rewrite scroll_scan_eq, es_search_eq, healthy_next, Hix by done.
  destruct (Z.leb_spec size 0); [lia|].
  destruct (Z.ltb_spec max_result_window size); [lia|]. simpl.
  set (n := Z.to_nat size). set (snap := snapshot_of ix q) in *.
  assert (0 < n)%nat as Hn by (subst n; lia). clearbody n snap.
  rewrite (acc_ok _ (take n snap)) by by apply Forall_take.
  match goal with
  | |- context [scroll_loop _ _ _ _ _ ?w1] =>
      destruct (scroll_loop_complete fuel (next_scroll w) n (drop n snap)
                  (take n snap) (g acc0 (take n snap)) w1) as [w' Hw'];
        [| | | | | |exists (next_scroll w), w'; rewrite Hw']
  end.
  - by apply healthy_after in Hw.
  - simpl. apply lookup_insert_eq.
  - done.
  - intros E. apply take_nil_inv in E; [|done]. by rewrite E, drop_nil.
  - by apply Forall_drop.
  - rewrite length_drop. lia.
  - by rewrite <-g_app, take_drop.
Qed.
End Complete.

Section Invariant.
Context {A : Type} (accumulate : A -> list hit -> exn + A).
Context (Inv : A -> Prop) (P : hit -> Prop).
Hypothesis acc_inv :
  forall acc hits acc',
    Inv acc -> Forall P hits -> accumulate acc hits = inr acc' -> Inv acc'.

Lemma scroll_loop_inv fuel :
  forall sid hits acc w sid' acc' w',
    (forall c, scrolls w !! sid = Some c -> Forall P (ctx_pending c)) ->
    Inv acc ->
    scroll_loop accumulate fuel sid hits acc w = Ok (Completed sid' acc') w' ->
    Inv acc'.
Proof.
  induction fuel as [|fuel IH]; intros sid hits acc w sid' acc' w' Hc Hacc;
    destruct hits as [|h hits]; rewrite ?scroll_loop_nil; try by intros [= <- <- <-].
  rewrite scroll_loop_step, es_scroll_eq.
  destruct (next_fails w); [done|].
  destruct (scrolls w !! sid) as [c|] eqn:Ec; [|done].
  specialize (Hc c eq_refl).
  destruct (take (ctx_size c) (ctx_pending c)) as [|h' hits'] eqn:Et.
  { by intros [= <- <- <-]. }
  destruct (accumulate acc (h' :: hits')) as [e|acc1] eqn:Ea; [done|].
  apply IH.
  - simpl. intros c'. rewrite lookup_insert_eq. intros [= <-]. simpl.
    by apply Forall_drop.
  - eapply acc_inv; [done| |done]. rewrite <-Et. by apply Forall_take.
Qed.

Lemma scroll_scan_inv index q size acc0 fuel w sid acc w' :
  (forall ix, indices w !! index = Some ix -> Forall P (snapshot_of ix q)) ->
  Inv acc0 ->
  scroll_scan accumulate index q size acc0 fuel w = Ok (Completed sid acc) w' ->
  Inv acc.
Proof.
  intros HP Hacc. rewrite scroll_scan_eq, es_search_eq.
  destruct (next_fails w); [done|].
  destruct (indices w !! index) as [ix|] eqn:Eix; [|done].
  specialize (HP ix eq_refl).
  destruct (_ || _); [done|].
  destruct (accumulate acc0 _) as [e|acc1] eqn:Ea; [done|].
  apply scroll_loop_inv.
  - simpl. intros c. rewrite lookup_insert_eq. intros [= <-]. simpl.
    by apply Forall_drop.
  - eapply acc_inv; [done| |done]. by apply Forall_take.
Qed.
End Invariant.

Lemma scroll_loop_total {A} (accumulate : A -> list hit -> exn + A) fuel :
  forall sid hits acc w c,
    scrolls w !! sid = Some c -> (length (ctx_pending c) < fuel)%nat ->
    scroll_loop accumulate fuel sid hits acc w <> OutOfFuel.
Proof.
  induction fuel as [|fuel IH]; intros sid hits acc w c Hc Hf; [lia|].
  destruct hits as [|h hits]; [by rewrite scroll_loop_nil|].
  rewrite scroll_loop_step, es_scroll_eq.
  destruct (next_fails w); [done|]. rewrite Hc.
  destruct (take (ctx_size c) (ctx_pending c)) as [|h' hits'] eqn:Et; [done|].
  destruct (accumulate acc (h' :: hits')); [done|].
  eapply IH; [simpl; apply lookup_insert_eq|]. simpl.
  rewrite length_drop. destruct (ctx_size c), (ctx_pending c); simpl in *; try done; lia.
Qed.

Lemma snapshot_length ix q : (length (snapshot_of ix q) <= size (docs ix))%nat.
Proof.
  unfold snapshot_of. rewrite <-length_map_to_list. apply length_filter.
Qed.

Lemma scroll_scan_total {A} (accumulate : A -> list hit -> exn + A)
    index q size acc0 fuel w :
  (scan_fuel w index <= fuel)%nat ->
  scroll_scan accumulate index q size acc0 fuel w <> OutOfFuel.
Proof.
  unfold scan_fuel. intros Hf. rewrite scroll_scan_eq, es_search_eq.
  destruct (next_fails w); [done|].
  destruct (indices w !! index) as [ix|]; [|done].
  destruct (_ || _); [done|].
  destruct (accumulate acc0 _); [done|].
  eapply scroll_loop_total; [simpl; apply lookup_insert_eq|]. simpl.
  rewrite length_drop. pose proof (snapshot_length ix q). lia.
Qed.

(* --------------------------------------------------------------------- *)
(** ** Completeness of the enumeration *)
(* --------------------------------------------------------------------- *)

Lemma bind_Ok_inv {A B} (m : M A) (f : A -> M B) w b w' :
  (m ≫= f) w = Ok b w' -> exists a w1, m w = Ok a w1 /\ f a w1 = Ok b w'.
Proof. rewrite bind_eq. destruct (m w) as [a w1|e w1|]; [eauto|done..]. Qed.

Lemma try_except_eq {A} (m : M A) h w :
  try_except m h w =
  match m w with
  | Raised e w' => h e w'
  | r => r
  end.
Proof. reflexivity. Qed.

Lemma try_pass_clear_scroll sid w :
  exists w', try_pass (es_clear_scroll sid) w = Ok tt w'.
Proof.
  unfold try_pass. rewrite try_except_eq. unfold es_clear_scroll.
  rewrite request_eq. destruct (next_fails w); [by eexists|].
  destruct (scrolls _ !! sid); by eexists.
Qed.

Lemma release_completed {A} sid (acc : A) w :
  exists w', release_scroll (Completed sid acc) w = Ok acc w'.
Proof.
  simpl. rewrite bind_eq. destruct (try_pass_clear_scroll sid w) as [w' ->].
  by eexists.
Qed.

Lemma release_failed {A} sid e w :
  exists w', release_scroll (@Failed A sid e) w = Raised e w'.
Proof.
  destruct sid as [sid|]; simpl; [|by eexists].
  rewrite bind_eq. destruct (try_pass_clear_scroll sid w) as [w' ->].
  by eexists.
Qed.

Lemma release_Ok_inv {A} (r : scan_exit A) w a w' :
  release_scroll r w = Ok a w' -> exists sid, r = Completed sid a.
Proof.
  destruct r as [sid acc|sid e].
  - destruct (release_completed sid acc w) as [w1 ->]. intros [= <- <-]. eauto.
  - destruct (@release_failed A sid e w) as [w1 ->]. done.
Qed.

Lemma check_index_exists_eq index w :
  _check_index_exists index w =
  Ok (negb (next_fails w) && bool_decide (is_Some (indices w !! index)))
    (after_request w).
Proof.
  unfold _check_index_exists, es_indices_exists.
  rewrite try_except_eq, request_eq. by destruct (next_fails w).
Qed.

(* ---------------- C1 ---------------- *)

Lemma collect_hits_ok acc hits :
  Forall (fun _ => True) hits -> collect_hits acc hits = inr (acc ++ hits).
Proof. done. Qed.

Lemma collect_doc_ids_ok acc hits :
  Forall (fun _ => True) hits ->
  collect_doc_ids acc hits
  = inr (acc ++ ((fun h : hit => source_doc_id h.2) <$> hits)).
Proof. done. Qed.

Lemma snapshot_NoDup ix q : NoDup (snapshot_of ix q).
Proof. apply NoDup_filter, NoDup_map_to_list. Qed.

Lemma elem_of_snapshot ix q k src :
  (k, src) ∈ snapshot_of ix q <-> docs ix !! k = Some src /\ matches q (k, src).
Proof.
  unfold snapshot_of. rewrite list_elem_of_filter, elem_of_map_to_list.
  tauto.
Qed.

Lemma filter_all {X} (P : X -> Prop) `{!forall x, Decision (P x)} (l : list X) :
  Forall P l -> filter P l = l.
Proof.
  induction 1 as [|x l Hx _ IH]; [done|]. by rewrite filter_cons_True, IH.
Qed.

Lemma snapshot_match_all ix : snapshot_of ix MatchAll = map_to_list (docs ix).
Proof. unfold snapshot_of. apply filter_all, Forall_forall. by intros. Qed.

Lemma Forall_trivial {X} (l : list X) : Forall (fun _ => True) l.
Proof. by apply Forall_forall. Qed.

Lemma scan_existing_ids_complete index ids fuel w ix :
  healthy w -> indices w !! index = Some ix ->
  (size (docs ix) < fuel)%nat ->
  exists w',
    scan_existing_ids index ids fuel w
    = Ok ((fun h : hit => source_doc_id h.2) <$> snapshot_of ix (TermsDocId ids)) w'.
Proof.
  intros Hw Hix Hf. unfold scan_existing_ids. rewrite bind_eq.
  destruct (scroll_scan_complete collect_doc_ids
              (fun acc hits => acc ++ ((fun h : hit => source_doc_id h.2) <$> hits))
              (fun _ => True) collect_doc_ids_ok
              (fun acc => app_nil_r acc)
              (fun acc h1 h2 => eq_trans (f_equal (app acc) (fmap_app _ h1 h2))
                                  (app_assoc _ _ _))
              index (TermsDocId ids) 1000 [] fuel w ix)
    as (sid & w1 & ->); try done.
  - apply Forall_trivial.
  - pose proof (snapshot_length ix (TermsDocId ids)). lia.
  - apply release_completed.
Qed.

Lemma load_all_documents_scan_complete w index ix batch_size fuel :
  healthy w -> indices w !! index = Some ix ->
  0 < batch_size <= max_result_window -> (size (docs ix) < fuel)%nat ->
  exists scroll_id w',
    load_all_documents_scan index batch_size fuel w
    = Ok (Completed scroll_id (map_to_list (docs ix))) w'.
Proof.
  intros Hw Hix Hb Hf. unfold load_all_documents_scan.
  rewrite <-snapshot_match_all.
  apply (scroll_scan_complete collect_hits (fun acc hits => acc ++ hits)
           (fun _ => True) collect_hits_ok (fun acc => app_nil_r acc)
           (fun acc h1 h2 => app_assoc acc h1 h2)
           index MatchAll batch_size [] fuel w ix); try done.
  - apply Forall_trivial.
  - pose proof (snapshot_length ix MatchAll). lia.
Qed.

(** C1.  Completeness of the cursor enumeration, whatever the number of
    records: when no request fails and the batch size is one the backend
    accepts (positive, at most the result window), opening a snapshot and
    fetching batches until one comes back empty returns every record of
    the collection exactly once: as many hits as the collection holds,
    without duplicates, and a hit for each stored record.  The same holds
    for the filtered scroll of [check_embeddings_exist] (1000 per batch):
    it yields the [doc_id] of exactly the records the filter selects,
    each record once. *)
Theorem cursor_scan_complete (w : world) (index : string) (ix : es_index)
    (batch_size : Z) (doc_ids : list string) (fuel : nat) :
  healthy w ->
  indices w !! index = Some ix ->
  0 < batch_size <= max_result_window ->
  (size (docs ix) < fuel)%nat ->
  (exists scroll_id w' all_documents,
     load_all_documents_scan index batch_size fuel w
     = Ok (Completed scroll_id all_documents) w'
     /\ length all_documents = size (docs ix)
     /\ NoDup all_documents
     /\ forall k src, (k, src) ∈ all_documents <-> docs ix !! k = Some src)
  /\ (exists w' yielded,
        scan_existing_ids index doc_ids fuel w
        = Ok ((fun h : hit => source_doc_id h.2) <$> yielded) w'
        /\ NoDup yielded
        /\ forall k src,
             (k, src) ∈ yielded
             <-> docs ix !! k = Some src /\ source_doc_id src ∈ doc_ids).
Proof.
  intros Hw Hix Hb Hf. split.
  - destruct (load_all_documents_scan_complete w index ix batch_size fuel)
      as (sid & w' & E); try done.
    exists sid, w', (map_to_list (docs ix)). split; [done|].
    split; [apply length_map_to_list|].
    split; [apply NoDup_map_to_list|]. intros k src.
    apply elem_of_map_to_list.
  - destruct (scan_existing_ids_complete index doc_ids fuel w ix) as [w' E];
      try done.
    exists w', (snapshot_of ix (TermsDocId doc_ids)). split; [done|].
    split; [apply snapshot_NoDup|]. intros k src.
    rewrite elem_of_snapshot. simpl. by rewrite bool_decide_spec.
Qed.

Lemma cursor_scan_complete_witness :
  exists scroll_id w' all_documents,
    load_all_documents_scan "documents_dataset" 5 13 (dataset_world 12 [])
    = Ok (Completed scroll_id all_documents) w'
    /\ length all_documents = 12%nat.
Proof.
  destruct (cursor_scan_complete (dataset_world 12 []) "documents_dataset"
              (EsIndex None (dataset_docs 12) 0) 5 [] 13)
    as [(scroll_id & w' & all_documents & E & Hlen & _) _].
  - unfold healthy. simpl. constructor.
  - reflexivity.
  - unfold max_result_window. lia.
  - vm_compute. lia.
  - exists scroll_id, w', all_documents. split; [exact E|].
    rewrite Hlen. vm_compute. reflexivity.
Defined.

Lemma dataset_docs_size n : size (dataset_docs n) = n.
Proof.
  unfold dataset_docs. rewrite map_size_list_to_map.
  - by rewrite length_fmap, length_seq.
  - rewrite <-list_fmap_compose. apply NoDup_fmap_2_strong; [|apply NoDup_seq].
    intros i j _ _ H. simpl in H.
    apply generate_doc_id_inj in H; lia.
Qed.

(** 18211 records against a window of 10000, 1000 per batch. *)
Example scan_beyond_window :
  max_result_window < 18211
  /\ exists scroll_id w' all_documents,
       load_all_documents_scan "documents_dataset" 1000
         (S (Z.to_nat 18211)) (dataset_world (Z.to_nat 18211) [])
       = Ok (Completed scroll_id all_documents) w'
       /\ Z.of_nat (length all_documents) = 18211
       /\ NoDup all_documents.
Proof.
  split; [unfold max_result_window; lia|].
  assert (Z.of_nat (Z.to_nat 18211) = 18211) as Hn by lia.
  revert Hn. generalize (Z.to_nat 18211). intros n Hn.
  destruct (load_all_documents_scan_complete (dataset_world n [])
              "documents_dataset" (EsIndex None (dataset_docs n) 0) 1000 (S n))
    as (scroll_id & w' & E).
  - unfold healthy, dataset_world. cbn [faults]. constructor.
  - unfold dataset_world. cbn [indices]. apply lookup_singleton_eq.
  - unfold max_result_window. lia.
  - cbn [docs]. rewrite dataset_docs_size. lia.
  - exists scroll_id, w', (map_to_list (dataset_docs n)).
    split; [exact E|]. split; [|apply NoDup_map_to_list].
    pose proof (length_map_to_list (dataset_docs n)) as Hl.
    rewrite dataset_docs_size in Hl. unfold hit. by rewrite Hl.
Qed.

(** A direct search for 18211 hits is refused: the window is 10000. *)
Lemma search_beyond_window w index q :
  exists e w', es_search index q 18211 w = Raised e w'.
Proof.
  rewrite es_search_eq. destruct (next_fails w); [eauto|].
  destruct (indices w !! index); eauto.
Qed.

(* --------------------------------------------------------------------- *)
(** ** Existence resolution *)
(* --------------------------------------------------------------------- *)

Lemma check_embeddings_exist_eq self index ids fuel w :
  connected self = true ->
  check_embeddings_exist self index ids fuel w =
  if negb (next_fails w) && bool_decide (is_Some (indices w !! index))
  then match scan_existing_ids index ids fuel (after_request w) with
       | Ok existing_ids w2 =>
           Ok (bool_decide (length (missing_of ids existing_ids) = 0%nat),
               existing_ids, missing_of ids existing_ids) w2
       | Raised e w2 => Ok (false, [], ids) w2
       | OutOfFuel => OutOfFuel
       end
  else Ok (false, [], ids) (after_request w).
Proof.
  intros Hc. unfold check_embeddings_exist. rewrite Hc. simpl.
  rewrite try_except_eq, bind_eq, check_index_exists_eq.
  destruct (negb (next_fails w) && _); simpl; [|done].
  rewrite bind_eq.
  destruct (scan_existing_ids index ids fuel (after_request w))
    as [ex w2|e w2|]; try done.
  simpl. unfold missing_of. do 3 f_equal.
  - apply bool_decide_ext. f_equiv. f_equal. apply list_filter_iff.
    intros x. by rewrite elem_of_list_to_set.
  - apply list_filter_iff. intros x. by rewrite elem_of_list_to_set.
Qed.

Lemma scan_fuel_after w index : scan_fuel (after_request w) index = scan_fuel w index.
Proof. done. Qed.

Lemma scan_existing_ids_total index ids fuel w :
  (scan_fuel w index <= fuel)%nat ->
  scan_existing_ids index ids fuel w <> OutOfFuel.
Proof.
  intros Hf. unfold scan_existing_ids. rewrite bind_eq.
  pose proof (scroll_scan_total collect_doc_ids index (TermsDocId ids) 1000 [] fuel w Hf) as Ht.
  destruct (scroll_scan _ _ _ _ _ _ w) as [r w1|e w1|]; [|done..].
  destruct r as [sid acc|sid e].
  - by destruct (release_completed sid acc w1) as [w2 ->].
  - by destruct (@release_failed (list string) sid e w1) as [w2 ->].
Qed.

Lemma scan_existing_ids_sound index ids fuel w existing_ids w' :
  scan_existing_ids index ids fuel w = Ok existing_ids w' ->
  forall x, x ∈ existing_ids ->
    x ∈ ids /\
    exists ix k src,
      indices w !! index = Some ix /\ docs ix !! k = Some src
      /\ source_doc_id src = x.
Proof.
  intros E. apply bind_Ok_inv in E as (r & w1 & Escan & Erel).
  apply release_Ok_inv in Erel as [sid ->].
  revert Escan.
  apply (scroll_scan_inv collect_doc_ids
           (fun acc => forall x, x ∈ acc ->
              x ∈ ids /\
              exists ix k src,
                indices w !! index = Some ix /\ docs ix !! k = Some src
                /\ source_doc_id src = x)
           (fun h => source_doc_id h.2 ∈ ids /\
              exists ix, indices w !! index = Some ix
                         /\ docs ix !! h.1 = Some h.2)).
  - intros acc hits acc' Hacc Hhits [= <-] x.
    rewrite elem_of_app, list_elem_of_fmap. intros [?|([k src] & -> & Hin)]; [auto|].
    rewrite Forall_forall in Hhits. destruct (Hhits _ Hin) as [? (ix & ? & ?)].
    simpl in *. eauto 10.
  - intros ix Hix. apply Forall_forall. intros [k src].
    rewrite elem_of_snapshot. simpl. rewrite bool_decide_spec.
    intros [? ?]. eauto.
  - intros x Hx. by apply elem_of_nil in Hx.
Qed.

Lemma elem_of_missing_of ids existing x :
  x ∈ missing_of ids existing <-> x ∈ ids /\ x ∉ existing.
Proof. unfold missing_of. rewrite list_elem_of_filter. tauto. Qed.

Lemma fallback_partition (doc_ids : list string) :
  (forall x, x ∈ doc_ids <-> x ∈ @nil string \/ x ∈ doc_ids)
  /\ (forall x, x ∈ @nil string -> x ∉ doc_ids)
  /\ doc_ids = filter (fun x => x ∉ @nil string) doc_ids.
Proof.
  split_and!.
  - intros x. rewrite elem_of_nil. tauto.
  - intros x Hx. by apply elem_of_nil in Hx.
  - symmetry. apply filter_all, Forall_forall. intros x _ Hx.
    by apply elem_of_nil in Hx.
Qed.

Lemma check_embeddings_exist_spec (self : ElasticsearchEmbeddingsCache)
    (index_name : string) (doc_ids : list string) (fuel : nat) (w : world) :
  ((scan_fuel w index_name <= fuel)%nat ->
   exists result w', check_embeddings_exist self index_name doc_ids fuel w
                     = Ok result w')
  /\ forall all_exist present missing w',
       check_embeddings_exist self index_name doc_ids fuel w
       = Ok (all_exist, present, missing) w' ->
       (forall x, x ∈ doc_ids <-> x ∈ present \/ x ∈ missing)
       /\ (forall x, x ∈ present -> x ∉ missing)
       /\ missing = missing_of doc_ids present
       /\ (all_exist = true -> missing = [])
       /\ (forall w1 yielded w2,
             connected self = true ->
             _check_index_exists index_name w = Ok true w1 ->
             scan_existing_ids index_name doc_ids fuel w1 = Ok yielded w2 ->
             present = yielded).
Proof.
  destruct (connected self) eqn:Hc; cycle 1.
  { unfold check_embeddings_exist. rewrite Hc. simpl. split; [eauto|].
    intros all present missing w' [= <- <- <- <-].
    split_and!; [by apply fallback_partition..|done|congruence]. }
  rewrite check_embeddings_exist_eq by done. split.
  - intros Hf. destruct (negb _ && _); [|eauto].
    pose proof (scan_existing_ids_total index_name doc_ids fuel (after_request w)) as Ht.
    rewrite scan_fuel_after in Ht. specialize (Ht Hf).
    destruct (scan_existing_ids _ _ _ _) as [ex w2|e w2|]; [eauto|eauto|done].
  - intros all present missing w'.
    rewrite check_index_exists_eq.
    destruct (negb _ && _) eqn:Hex; cycle 1.
    { intros [= <- <- <- <-].
      split_and!; [by apply fallback_partition..|done|done]. }
    destruct (scan_existing_ids _ _ _ _) as [ex w2|e w2|] eqn:Escan; [| |done].
    + intros [= <- <- <- <-].
      pose proof (scan_existing_ids_sound _ _ _ _ _ _ Escan) as Hs.
      split_and!.
      * intros x. rewrite elem_of_missing_of. split.
        -- intros Hx. destruct (decide (x ∈ ex)); auto.
        -- intros [Hx|[Hx _]]; [by apply Hs|done].
      * intros x Hx. rewrite elem_of_missing_of. tauto.
      * done.
      * rewrite bool_decide_eq_true. apply length_zero_iff_nil.
      * intros w1 yielded w3 _ [= <-]. rewrite Escan. by intros [= <- <-].
    + intros [= <- <- <- <-].
      split_and!; [by apply fallback_partition..|done|].
      intros w1 yielded w3 _ [= <-]. by rewrite Escan.
Qed.

Lemma missing_of_nil ids existing x :
  missing_of ids existing = [] -> x ∈ ids -> x ∈ existing.
Proof.
  intros H Hx. destruct (decide (x ∈ existing)) as [|Hn]; [done|].
  assert (x ∈ missing_of ids existing) as Hin by by apply elem_of_missing_of.
  rewrite H in Hin. by apply elem_of_nil in Hin.
Qed.

Lemma missing_of_covered ids existing :
  (forall x, x ∈ ids -> x ∈ existing) -> missing_of ids existing = [].
Proof.
  induction ids as [|x ids IH]; intros H; [done|]. unfold missing_of.
  rewrite filter_cons_False.
  - apply IH. intros y Hy. apply H. by apply elem_of_cons; right.
  - intros Hn. apply Hn, H. by apply elem_of_cons; left.
Qed.

Lemma check_cases self index ids fuel w all existing missing w' :
  connected self = true ->
  check_embeddings_exist self index ids fuel w = Ok (all, existing, missing) w' ->
  indices w' = indices w
  /\ ((all = false /\ existing = [] /\ missing = ids)
      \/ (missing = missing_of ids existing
          /\ (all = true -> missing = [])
          /\ forall x, x ∈ existing -> stored_under w index x)).
Proof.
  intros Hc E.
  pose proof (reads_Ok _ _ _ _ (reads_check_embeddings_exist self index ids fuel) E)
    as [Hi _].
  split; [done|]. revert E. rewrite check_embeddings_exist_eq by done.
  destruct (negb _ && _); [|intros [= <- <- <-]; auto].
  destruct (scan_existing_ids _ _ _ _) as [ex w2|e w2|] eqn:Escan;
    [|intros [= <- <- <-]; auto|done].
  intros [= <- <- <- <-]. right. split; [done|]. split.
  - rewrite bool_decide_eq_true. apply length_zero_iff_nil.
  - intros x Hx. by apply (scan_existing_ids_sound _ _ _ _ _ _ Escan).
Qed.

Lemma elem_of_snapshot_ids ix ids x :
  x ∈ (fun h : hit => source_doc_id h.2) <$> snapshot_of ix (TermsDocId ids)
  <-> x ∈ ids
      /\ exists k src, docs ix !! k = Some src /\ source_doc_id src = x.
Proof.
  rewrite list_elem_of_fmap. split.
  - intros ([k src] & -> & [Hk Hm]%elem_of_snapshot). simpl in *.
    apply bool_decide_unpack in Hm. eauto.
  - intros (Hx & k & src & Hk & <-). exists (k, src). split; [done|].
    apply elem_of_snapshot. split; [done|]. simpl. by apply bool_decide_pack.
Qed.

(** The check against the store, when the enumeration runs to its end. *)
Lemma check_embeddings_exist_complete self index_name ix doc_ids fuel w :
  connected self = true -> healthy w -> indices w !! index_name = Some ix ->
  (size (docs ix) < fuel)%nat ->
  exists w',
    check_embeddings_exist self index_name doc_ids fuel w
    = Ok (bool_decide
            (length
               (missing_of doc_ids
                  ((fun h : hit => source_doc_id h.2)
                     <$> snapshot_of ix (TermsDocId doc_ids))) = 0%nat),
          (fun h : hit => source_doc_id h.2)
            <$> snapshot_of ix (TermsDocId doc_ids),
          missing_of doc_ids
            ((fun h : hit => source_doc_id h.2)
               <$> snapshot_of ix (TermsDocId doc_ids))) w'.
Proof.
  intros Hc Hw Hix Hf. rewrite check_embeddings_exist_eq by done.
  rewrite healthy_next by done. cbn [negb andb].
  rewrite bool_decide_eq_true_2 by (rewrite Hix; eauto).
  destruct (scan_existing_ids_complete index_name doc_ids fuel
              (after_request w) ix) as [w' ->]; try done.
  - by apply healthy_after.
  - by exists w'.
Qed.

(** C2.  The existence resolver partitions the requested ids, for every
    list of ids (the empty one included) and every state of the backend:
    with enough fuel the check returns, every requested id is present or
    missing, no id is both, and [missing] is the list of the requested
    ids that are not among the ids the enumeration yielded.  Against the
    store: an id is only ever reported present if it was requested and
    some stored record carries it, so a requested id that no record
    carries is always missing; and when the requests reach the backend,
    [present] is the [doc_id] of each hit of the enumeration, one per
    stored record carrying a requested id, [missing] is exactly the
    requested ids that no stored record carries, and all-exist says that
    there is none. *)
Theorem existence_partition (self : ElasticsearchEmbeddingsCache)
    (index_name : string) (doc_ids : list string) (fuel : nat) (w : world) :
  (scan_fuel w index_name <= fuel)%nat ->
  exists all_exist present missing w',
    check_embeddings_exist self index_name doc_ids fuel w
    = Ok (all_exist, present, missing) w'
    /\ (forall x, x ∈ doc_ids <-> x ∈ present \/ x ∈ missing)
    /\ (forall x, x ∈ present -> x ∉ missing)
    /\ missing = missing_of doc_ids present
    /\ (all_exist = true -> missing = [])
    /\ (forall w1 yielded w2,
          connected self = true ->
          _check_index_exists index_name w = Ok true w1 ->
          scan_existing_ids index_name doc_ids fuel w1 = Ok yielded w2 ->
          present = yielded)
    /\ (forall x, x ∈ present -> x ∈ doc_ids /\ stored_under w index_name x)
    /\ (forall x,
          x ∈ doc_ids -> ~ stored_under w index_name x -> x ∈ missing)
    /\ (forall ix,
          connected self = true -> healthy w ->
          indices w !! index_name = Some ix ->
          present
          = (fun h : hit => source_doc_id h.2)
              <$> snapshot_of ix (TermsDocId doc_ids)
          /\ (forall x,
                x ∈ present
                <-> x ∈ doc_ids
                    /\ exists k src,
                         docs ix !! k = Some src /\ source_doc_id src = x)
          /\ (forall x,
                x ∈ missing
                <-> x ∈ doc_ids
                    /\ forall k src,
                         docs ix !! k = Some src -> source_doc_id src <> x)
          /\ (all_exist = true
              <-> forall x,
                    x ∈ doc_ids ->
                    exists k src,
                      docs ix !! k = Some src /\ source_doc_id src = x)).
Proof.
  intros Hf.
  destruct (check_embeddings_exist_spec self index_name doc_ids fuel w)
    as [Htotal Hspec].
  destruct (Htotal Hf) as ([[all_exist present] missing] & w' & E).
  exists all_exist, present, missing, w'. split; [done|].
  destruct (Hspec all_exist present missing w' E)
    as (Hcover & Hdisj & Hmiss & Hall & Hyield).
  assert (forall x, x ∈ present -> x ∈ doc_ids /\ stored_under w index_name x)
    as Hsound.
  { destruct (connected self) eqn:Hc.
    - destruct (check_cases self index_name doc_ids fuel w _ _ _ _ Hc E)
        as [_ [(_ & -> & _)|(_ & _ & Hs)]].
      + intros x Hx. by apply elem_of_nil in Hx.
      + intros x Hx. split; [|by apply Hs]. apply Hcover. by left.
    - revert E. unfold check_embeddings_exist. rewrite Hc. cbn [negb].
      intros [= <- <- <- <-] x Hx. by apply elem_of_nil in Hx. }
  split_and!; try done.
  - intros x Hx Hn. apply Hcover in Hx as [Hx|Hx]; [|done].
    exfalso. by apply Hn, Hsound.
  - intros ix Hc Hw Hix.
    destruct (check_embeddings_exist_complete self index_name ix doc_ids fuel w)
      as [w1 E1]; try done.
    { unfold scan_fuel in Hf. rewrite Hix in Hf. lia. }
    rewrite E in E1. injection E1 as -> -> -> _.
    split; [done|]. split; [apply elem_of_snapshot_ids|]. split.
    + intros x. rewrite elem_of_missing_of, elem_of_snapshot_ids. split.
      * intros [Hx Hn]. split; [done|]. intros k src Hk Hd. apply Hn. eauto.
      * intros [Hx Hn]. split; [done|]. intros (_ & k & src & Hk & Hd).
        by apply (Hn k src).
    + rewrite bool_decide_eq_true, length_zero_iff_nil. split.
      * intros Hnil x Hx.
        apply (missing_of_nil _ _ x Hnil) in Hx.
        by apply elem_of_snapshot_ids in Hx as [_ ?].
      * intros Hstored. apply missing_of_covered. intros x Hx.
        apply elem_of_snapshot_ids. auto.
Qed.

Lemma existence_partition_witness :
  (scan_fuel synced_world "embeddings_duplicate_test" <= 3)%nat
  /\ exists all_exist present missing w',
       check_embeddings_exist client "embeddings_duplicate_test"
         ["doc_test_002"; "doc_test_404"]%string 3 synced_world
       = Ok (all_exist, present, missing) w'
       /\ missing = missing_of ["doc_test_002"; "doc_test_404"]%string present
       /\ present
          = (fun h : hit => source_doc_id h.2)
              <$> snapshot_of synced_index
                    (TermsDocId ["doc_test_002"; "doc_test_404"]%string).
Proof.
  assert (scan_fuel synced_world "embeddings_duplicate_test" <= 3)%nat as H.
  { vm_compute. lia. }
  assert (healthy synced_world) as Hw.
  { vm_compute. constructor. }
  assert (indices synced_world !! "embeddings_duplicate_test"%string
          = Some synced_index) as Hix.
  { vm_compute. reflexivity. }
  split; [exact H|].
  destruct (existence_partition client "embeddings_duplicate_test"
              ["doc_test_002"; "doc_test_404"]%string 3 synced_world H)
    as (all_exist & present & missing & w' & E & _ & _ & Hm & _ & _ & _ & _
        & Hstore).
  exists all_exist, present, missing, w'. split; [exact E|].
  split; [exact Hm|].
  exact (proj1 (Hstore synced_index eq_refl Hw Hix)).
Defined.

Example existence_partition_run :
  outcome_value
    (check_embeddings_exist client "embeddings_duplicate_test"
       ["doc_test_002"; "doc_test_404"]%string 3 synced_world)
  = Some (false, ["doc_test_002"], ["doc_test_404"])%string.
Proof. vm_compute. reflexivity. Qed.

Example existence_partition_empty :
  outcome_value
    (check_embeddings_exist client "embeddings_duplicate_test" [] 3
       synced_world)
  = Some (true, [], []).
Proof. vm_compute. reflexivity. Qed.

(** C10.  The existence check is fail-safe: whenever it cannot complete
    (the client is not connected, the collection does not exist, the
    probe fails, or the scan raises an error), it returns all-exist =
    false, an empty list of present ids and the whole list of requested
    ids as missing. *)
Theorem existence_check_fail_safe (self : ElasticsearchEmbeddingsCache)
    (index_name : string) (doc_ids : list string) (fuel : nat) (w : world) :
  incomplete_check self index_name doc_ids fuel w ->
  exists w',
    check_embeddings_exist self index_name doc_ids fuel w
    = Ok (false, [], doc_ids) w'.
Proof.
  intros H. destruct (connected self) eqn:Hc; cycle 1.
  { unfold check_embeddings_exist. rewrite Hc. simpl. eauto. }
  rewrite check_embeddings_exist_eq by done.
  destruct H as [H|[H|[[w1 H]|(w1 & e & w2 & H1 & H2)]]]; [congruence|..].
  - rewrite H. rewrite bool_decide_eq_false_2 by by intros [? ?].
    rewrite andb_false_r. eauto.
  - rewrite check_index_exists_eq in H. injection H as -> _. eauto.
  - rewrite check_index_exists_eq in H1. injection H1 as -> <-.
    rewrite H2. eauto.
Qed.

Lemma existence_check_fail_safe_witness :
  incomplete_check client "documents_dataset" ["doc_0001"]%string 5
    search_fails_world
  /\ exists w',
       check_embeddings_exist client "documents_dataset" ["doc_0001"]%string 5
         search_fails_world
       = Ok (false, [], ["doc_0001"]%string) w'.
Proof.
  assert (incomplete_check client "documents_dataset" ["doc_0001"]%string 5
            search_fails_world) as H.
  { do 3 right.
    exists (outcome_world
              (_check_index_exists "documents_dataset" search_fails_world)
              search_fails_world).
    exists ConnectionError.
    exists (outcome_world
              (check_embeddings_exist client "documents_dataset"
                 ["doc_0001"]%string 5 search_fails_world)
              search_fails_world).
    split; vm_compute; reflexivity. }
  split; [exact H|].
  apply (existence_check_fail_safe client "documents_dataset"
           ["doc_0001"]%string 5 search_fails_world H).
Defined.

(* --------------------------------------------------------------------- *)
(** ** Integrity validation *)
(* --------------------------------------------------------------------- *)

Lemma collect_hashes_ok m hits :
  Forall (fun h : hit => is_embedding h.2) hits ->
  collect_hashes m hits = inr (record_hashes m hits).
Proof.
  intros H. revert m. induction H as [|[k src] hits Hh _ IH]; intros m; [done|].
  simpl in *. destruct src; [done|]. simpl. apply IH.
Qed.

Lemma record_hashes_app m h1 h2 :
  record_hashes m (h1 ++ h2) = record_hashes (record_hashes m h1) h2.
Proof. apply foldl_app. Qed.

Lemma record_hashes_snoc m l h :
  record_hashes m (l ++ [h])
  = <[source_doc_id h.2 := stored_hash h.2]> (record_hashes m l).
Proof. by rewrite record_hashes_app. Qed.

Lemma record_hashes_absent m l id :
  (forall h : hit, h ∈ l -> source_doc_id h.2 <> id) ->
  record_hashes m l !! id = m !! id.
Proof.
  induction l as [|h l IH] using rev_ind; intros H; [done|].
  rewrite record_hashes_snoc, lookup_insert_ne.
  - apply IH. intros h' Hh'. apply H. rewrite elem_of_app. auto.
  - apply H. rewrite elem_of_app, list_elem_of_singleton. auto.
Qed.

Lemma record_hashes_present m l id v :
  (exists h : hit, h ∈ l /\ source_doc_id h.2 = id) ->
  (forall h : hit, h ∈ l -> source_doc_id h.2 = id -> stored_hash h.2 = v) ->
  record_hashes m l !! id = Some v.
Proof.
  induction l as [|h l IH] using rev_ind; intros (h0 & Hin & Hid) Hv.
  { by apply elem_of_nil in Hin. }
  rewrite record_hashes_snoc.
  destruct (decide (source_doc_id h.2 = id)) as [E|E].
  - rewrite E, lookup_insert_eq. f_equal. apply Hv; [|done].
    rewrite elem_of_app, list_elem_of_singleton. auto.
  - rewrite lookup_insert_ne by done. apply IH.
    + exists h0. split; [|done].
      apply elem_of_app in Hin as [?|Hin]; [done|].
      apply list_elem_of_singleton in Hin. congruence.
    + intros h' Hh'. apply Hv. rewrite elem_of_app. auto.
Qed.

Lemma validate_each_spec m ids :
  forall i texts invalid_ids,
    (length ids <= length (drop i texts))%nat ->
    validate_each m i ids texts invalid_ids
    = inr (invalid_ids ++ invalid_of m ids (drop i texts)).
Proof.
  induction ids as [|id ids IH]; intros i texts inv Hl; simpl.
  { unfold invalid_of. simpl. by rewrite app_nil_r. }
  destruct (texts !! i) as [t|] eqn:Et; cycle 1.
  { apply lookup_ge_None in Et. rewrite length_drop in Hl. simpl in Hl. lia. }
  rewrite (drop_S _ _ _ Et) in *. simpl in Hl.
  assert (invalid_of m (id :: ids) (t :: drop (S i) texts)
          = (if decide (mismatch m (id, t)) then [id] else [])
              ++ invalid_of m ids (drop (S i) texts)) as ->.
  { unfold invalid_of. simpl. rewrite filter_cons. by destruct (decide _). }
  destruct (m !! id) as [stored|] eqn:Em.
  - assert (mismatch m (id, t) <-> _generate_text_hash t <> stored) as Hm.
    { unfold mismatch. simpl. by rewrite Em. }
    case_bool_decide as Hd; destruct (decide _) as [Hd'|Hd']; try tauto.
    + rewrite IH by lia. by rewrite <-app_assoc.
    + by rewrite IH by lia.
  - assert (mismatch m (id, t)) as Hm.
    { unfold mismatch. simpl. by rewrite Em. }
    destruct (decide _) as [Hd'|Hd']; [|done].
    rewrite IH by lia. by rewrite <-app_assoc.
Qed.

Lemma validate_each_absent m ids :
  forall i texts invalid_ids res,
    validate_each m i ids texts invalid_ids = inr res ->
    (forall x, x ∈ invalid_ids -> x ∈ res)
    /\ (forall x, x ∈ ids -> m !! x = None -> x ∈ res).
Proof.
  induction ids as [|id ids IH]; intros i texts inv res; simpl.
  { intros [= <-]. split; [done|]. intros x Hx. by apply elem_of_nil in Hx. }
  destruct (m !! id) as [stored|] eqn:Em.
  - destruct (texts !! i) as [t|]; [|done].
    case_bool_decide; intros E; apply IH in E as [E1 E2]; split.
    + intros x Hx. apply E1. rewrite elem_of_app. auto.
    + intros x Hx Hn. apply elem_of_cons in Hx as [->|Hx]; [congruence|auto].
    + done.
    + intros x Hx Hn. apply elem_of_cons in Hx as [->|Hx]; [congruence|auto].
  - intros E. apply IH in E as [E1 E2]. split.
    + intros x Hx. apply E1. rewrite elem_of_app. auto.
    + intros x Hx Hn. apply elem_of_cons in Hx as [->|Hx]; [|auto].
      apply E1. rewrite elem_of_app, list_elem_of_singleton. auto.
Qed.

Lemma validate_eq self index ids texts fuel w :
  connected self = true ->
  validate_embeddings_integrity self index ids texts fuel w =
  match scan_text_hashes index ids fuel w with
  | Ok m w1 =>
      match validate_each m 0 ids texts [] with
      | inl _ => Ok (false, ids) w1
      | inr invalid_ids =>
          Ok (bool_decide (length invalid_ids = 0%nat), invalid_ids) w1
      end
  | Raised _ w1 => Ok (false, ids) w1
  | OutOfFuel => OutOfFuel
  end.
Proof.
  intros Hc. unfold validate_embeddings_integrity. rewrite Hc. simpl.
  rewrite try_except_eq, bind_eq.
  destruct (scan_text_hashes index ids fuel w) as [m w1|e w1|]; try done.
  rewrite bind_eq. by destruct (validate_each m 0 ids texts []).
Qed.

Lemma scan_text_hashes_total index ids fuel w :
  (scan_fuel w index <= fuel)%nat ->
  scan_text_hashes index ids fuel w <> OutOfFuel.
Proof.
  intros Hf. unfold scan_text_hashes. rewrite bind_eq.
  pose proof (scroll_scan_total collect_hashes index (TermsDocId ids) 1000 ∅ fuel w Hf) as Ht.
  destruct (scroll_scan _ _ _ _ _ _ w) as [r w1|e w1|]; [|done..].
  destruct r as [sid acc|sid e].
  - by destruct (release_completed sid acc w1) as [w2 ->].
  - by destruct (@release_failed (gmap string string) sid e w1) as [w2 ->].
Qed.

Lemma scan_text_hashes_complete index ids fuel w ix :
  healthy w -> indices w !! index = Some ix ->
  Forall (fun h : hit => is_embedding h.2) (snapshot_of ix (TermsDocId ids)) ->
  (size (docs ix) < fuel)%nat ->
  exists w',
    scan_text_hashes index ids fuel w
    = Ok (record_hashes ∅ (snapshot_of ix (TermsDocId ids))) w'.
Proof.
  intros Hw Hix He Hf. unfold scan_text_hashes. rewrite bind_eq.
  destruct (scroll_scan_complete collect_hashes record_hashes
              (fun h : hit => is_embedding h.2) collect_hashes_ok
              (fun m => eq_refl) record_hashes_app
              index (TermsDocId ids) 1000 ∅ fuel w ix)
    as (sid & w1 & ->); try done.
  - pose proof (snapshot_length ix (TermsDocId ids)). lia.
  - apply release_completed.
Qed.

Lemma validate_embeddings_integrity_spec (self : ElasticsearchEmbeddingsCache)
    (index_name : string) (doc_ids expected_texts : list string)
    (fuel : nat) (w : world) :
  ((scan_fuel w index_name <= fuel)%nat ->
   exists result w',
     validate_embeddings_integrity self index_name doc_ids expected_texts fuel w
     = Ok result w')
  /\ forall all_valid invalid_ids w',
       validate_embeddings_integrity self index_name doc_ids expected_texts
         fuel w = Ok (all_valid, invalid_ids) w' ->
       (forall doc_id,
          doc_id ∈ doc_ids ->
          (forall m w1, scan_text_hashes index_name doc_ids fuel w = Ok m w1 ->
                        m !! doc_id = None) ->
          doc_id ∈ invalid_ids)
       /\ (forall m w1,
             connected self = true ->
             scan_text_hashes index_name doc_ids fuel w = Ok m w1 ->
             length doc_ids = length expected_texts ->
             invalid_ids = invalid_of m doc_ids expected_texts
             /\ (all_valid = true <-> invalid_ids = [])).
Proof.
  destruct (connected self) eqn:Hc; cycle 1.
  { unfold validate_embeddings_integrity. rewrite Hc. simpl. split; [eauto|].
    intros all_valid inv w' [= <- <- <-]. split; [done|]. by intros. }
  rewrite validate_eq by done. split.
  - intros Hf. pose proof (scan_text_hashes_total index_name doc_ids fuel w Hf).
    destruct (scan_text_hashes _ _ _ _) as [m w1|e w1|]; [|eauto|done].
    destruct (validate_each m 0 doc_ids expected_texts []); eauto.
  - intros all_valid inv w'.
    destruct (scan_text_hashes _ _ _ _) as [m w1|e w1|]; [| |done].
    + destruct (validate_each m 0 doc_ids expected_texts []) as [e|res] eqn:Ev.
      * intros [= <- <- <-]. split; [done|].
        intros m' w1' _ [= <- <-] Hl.
        rewrite validate_each_spec in Ev; [done|]. rewrite drop_0. lia.
      * intros [= <- <- <-]. split.
        -- intros id Hid Hm. apply validate_each_absent in Ev as [_ Ev].
           apply Ev; [done|]. by eapply Hm.
        -- intros m' w1' _ [= <- <-] Hl.
           rewrite validate_each_spec in Ev by (rewrite drop_0; lia).
           injection Ev as <-. rewrite drop_0. split; [done|].
           rewrite bool_decide_eq_true. apply length_zero_iff_nil.
    + intros [= <- <- <-]. split; [done|]. by intros.
Qed.

Lemma elem_of_invalid_of m ids texts id :
  id ∈ invalid_of m ids texts
  <-> exists i text,
        ids !! i = Some id /\ texts !! i = Some text /\ mismatch m (id, text).
Proof.
  unfold invalid_of. rewrite list_elem_of_fmap. split.
  - intros ([id' text] & -> & Hin). apply list_elem_of_filter in Hin as [Hm Hin].
    apply elem_of_lookup_zip_with in Hin as (i & y & z & [= <- <-] & ? & ?).
    eauto.
  - intros (i & text & Hi & Ht & Hm). exists (id, text). split; [done|].
    apply list_elem_of_filter. split; [done|].
    apply elem_of_lookup_zip_with. eauto 10.
Qed.

Lemma collect_hashes_inv w index m hits m' :
  (forall id h, m !! id = Some h -> stored_under w index id) ->
  Forall (fun h : hit =>
            exists ix, indices w !! index = Some ix /\ docs ix !! h.1 = Some h.2)
    hits ->
  collect_hashes m hits = inr m' ->
  forall id h, m' !! id = Some h -> stored_under w index id.
Proof.
  intros Hm Hhits. revert m Hm.
  induction Hhits as [|[k src] hits (ix & Hix & Hsrc) _ IH]; intros m Hm; simpl.
  { by intros [= <-]. }
  destruct (source_metadata_text_hash src) as [e|stored]; [done|].
  simpl in *. apply IH. intros id h.
  destruct (decide (source_doc_id src = id)) as [<-|Hne].
  - intros _. by exists ix, k, src.
  - rewrite lookup_insert_ne by done. apply Hm.
Qed.

Lemma scan_text_hashes_sound index ids fuel w m w' :
  scan_text_hashes index ids fuel w = Ok m w' ->
  forall id h, m !! id = Some h -> stored_under w index id.
Proof.
  unfold scan_text_hashes. intros H.
  apply bind_Ok_inv in H as (r & w1 & Escan & Hrel).
  apply release_Ok_inv in Hrel as [sid ->].
  eapply (scroll_scan_inv collect_hashes
            (fun m => forall id h, m !! id = Some h -> stored_under w index id)
            (fun h : hit =>
               exists ix, indices w !! index = Some ix
                          /\ docs ix !! h.1 = Some h.2)); [| | |exact Escan].
  - intros acc hits acc' Hacc Hhits E. by eapply collect_hashes_inv.
  - intros ix Hix. apply Forall_forall.
    intros [k src] [Hin _]%elem_of_snapshot. by exists ix.
  - intros id h. by rewrite lookup_empty.
Qed.

Lemma validate_each_subset m ids :
  forall i texts invalid_ids res,
    validate_each m i ids texts invalid_ids = inr res ->
    forall x, x ∈ res -> x ∈ invalid_ids \/ x ∈ ids.
Proof.
  induction ids as [|id ids IH]; intros i texts inv res; simpl.
  { intros [= <-] x Hx. by left. }
  assert (forall res',
            validate_each m (S i) ids texts (inv ++ [id]) = inr res' ->
            forall x, x ∈ res' -> x ∈ inv \/ x ∈ id :: ids) as Hadd.
  { intros res' E x Hx. destruct (IH _ _ _ _ E x Hx) as [Hin|Hin].
    - apply elem_of_app in Hin as [?|Hin]; [by left|].
      apply list_elem_of_singleton in Hin as ->. right. apply list_elem_of_here.
    - right. by apply elem_of_cons; right. }
  destruct (m !! id) as [stored|]; [|apply Hadd].
  destruct (texts !! i) as [t|]; [|done].
  case_bool_decide; [apply Hadd|].
  intros E x Hx. destruct (IH _ _ _ _ E x Hx) as [Hin|Hin]; [by left|].
  right. by apply elem_of_cons; right.
Qed.

Lemma fingerprinted_scanned ix ids id h :
  fingerprinted ix id h -> id ∈ ids ->
  record_hashes ∅ (snapshot_of ix (TermsDocId ids)) !! id = Some h.
Proof.
  intros [(k & src & Hk & Hid) Hall] Hin. apply record_hashes_present.
  - exists (k, src). split; [|done]. apply elem_of_snapshot. split; [done|].
    simpl. rewrite Hid. by apply bool_decide_pack.
  - intros [k' src'] Hin' Hid'. simpl in *.
    apply elem_of_snapshot in Hin' as [Hk' _].
    specialize (Hall k' src' Hk' Hid'). destruct src'; by simplify_eq/=.
Qed.

Lemma unstored_scanned ix ids id :
  (forall k src, docs ix !! k = Some src -> source_doc_id src <> id) ->
  record_hashes ∅ (snapshot_of ix (TermsDocId ids)) !! id = None.
Proof.
  intros Hnone. rewrite record_hashes_absent; [done|].
  intros [k src] [Hk _]%elem_of_snapshot. by apply (Hnone k src).
Qed.

Lemma hashes_scanned ix ids id :
  keyed ix -> id ∈ ids ->
  record_hashes ∅ (snapshot_of ix (TermsDocId ids)) !! id
  = stored_hash <$> docs ix !! id.
Proof.
  intros Hk Hid. destruct (docs ix !! id) as [src|] eqn:Hsrc; simpl.
  - pose proof (Hk id src Hsrc) as Hd. simpl in Hd.
    apply record_hashes_present.
    + exists (id, src). split; [|done]. apply elem_of_snapshot.
      split; [done|]. simpl. apply bool_decide_pack. by rewrite Hd.
    + intros [k src'] [Hin _]%elem_of_snapshot Hk'. simpl in *.
      pose proof (Hk k src' Hin) as Hd'. simpl in Hd'.
      assert (k = id) as -> by congruence. congruence.
  - apply unstored_scanned. intros k src' Hin Hd.
    pose proof (Hk k src' Hin) as Hd'. simpl in Hd'. congruence.
Qed.

Lemma filter_ext_elem {X} (P Q : X -> Prop) `{!forall x, Decision (P x)}
    `{!forall x, Decision (Q x)} (l : list X) :
  (forall x, x ∈ l -> P x <-> Q x) -> filter P l = filter Q l.
Proof.
  induction l as [|x l IH]; intros Hext; [done|].
  rewrite !filter_cons.
  assert (P x <-> Q x) as Hx by apply Hext, list_elem_of_here.
  rewrite IH by (intros y Hy; apply Hext; by apply elem_of_cons; right).
  destruct (decide (P x)), (decide (Q x)); tauto.
Qed.

(** C5.  Absence is an integrity failure: with enough fuel the validator
    returns, and every requested id for which the scan returned no record
    is in the invalid list it returns.  Against the store, in every state
    of the backend: a requested id that no stored record carries is in the
    invalid list, and the invalid list holds requested ids only.  When the
    requests reach the backend, the requested records are embedding
    records and ids and texts are paired, the invalid list is exactly the
    mismatched ids plus the ids without record: an id whose stored
    records carry the fingerprint [h] is invalid exactly when it is paired
    with a text of another fingerprint, an id that no record carries is
    invalid exactly when it is requested, and on a collection keyed by
    [doc_id] the invalid list is, in order, the ids whose record is
    missing or carries another fingerprint than the paired text. *)
Theorem absent_ids_are_invalid (self : ElasticsearchEmbeddingsCache)
    (index_name : string) (doc_ids expected_texts : list string)
    (fuel : nat) (w : world) :
  (scan_fuel w index_name <= fuel)%nat ->
  exists all_valid invalid_ids w',
    validate_embeddings_integrity self index_name doc_ids expected_texts fuel w
    = Ok (all_valid, invalid_ids) w'
    /\ (forall doc_id,
          doc_id ∈ doc_ids ->
          (forall m w1, scan_text_hashes index_name doc_ids fuel w = Ok m w1 ->
                        m !! doc_id = None) ->
          doc_id ∈ invalid_ids)
    /\ (forall m w1,
          connected self = true ->
          scan_text_hashes index_name doc_ids fuel w = Ok m w1 ->
          length doc_ids = length expected_texts ->
          invalid_ids = invalid_of m doc_ids expected_texts
          /\ (all_valid = true <-> invalid_ids = []))
    /\ (forall doc_id,
          doc_id ∈ doc_ids -> ~ stored_under w index_name doc_id ->
          doc_id ∈ invalid_ids)
    /\ (forall doc_id, doc_id ∈ invalid_ids -> doc_id ∈ doc_ids)
    /\ (forall ix,
          connected self = true -> healthy w ->
          indices w !! index_name = Some ix ->
          map_Forall
            (fun _ src => source_doc_id src ∈ doc_ids -> is_embedding src)
            (docs ix) ->
          length doc_ids = length expected_texts ->
          (all_valid = true <-> invalid_ids = [])
          /\ (forall doc_id h,
                fingerprinted ix doc_id h ->
                (doc_id ∈ invalid_ids
                 <-> exists i text,
                       doc_ids !! i = Some doc_id
                       /\ expected_texts !! i = Some text
                       /\ _generate_text_hash text <> h))
          /\ (forall doc_id,
                (forall k src,
                   docs ix !! k = Some src -> source_doc_id src <> doc_id) ->
                (doc_id ∈ invalid_ids <-> doc_id ∈ doc_ids))
          /\ (keyed ix ->
              invalid_ids
              = (filter (stale ix) (zip doc_ids expected_texts)).*1)).
Proof.
  intros Hf.
  destruct (validate_embeddings_integrity_spec self index_name doc_ids
              expected_texts fuel w) as [Htotal Hspec].
  destruct (Htotal Hf) as ([all_valid invalid_ids] & w' & E).
  exists all_valid, invalid_ids, w'. split; [done|].
  destruct (Hspec all_valid invalid_ids w' E) as [Hold1 Hold2].
  split; [done|]. split; [done|].
  assert ((forall doc_id,
             doc_id ∈ doc_ids -> ~ stored_under w index_name doc_id ->
             doc_id ∈ invalid_ids)
          /\ (forall doc_id, doc_id ∈ invalid_ids -> doc_id ∈ doc_ids))
    as [Habsent Hsub].
  { destruct (connected self) eqn:Hc; cycle 1.
    { revert E. unfold validate_embeddings_integrity. rewrite Hc. cbn [negb].
      by intros [= <- <- <-]. }
    revert E. rewrite validate_eq by done.
    destruct (scan_text_hashes index_name doc_ids fuel w) as [m w1|e w1|]
      eqn:Escan; [| |done].
    - destruct (validate_each m 0 doc_ids expected_texts []) as [e|res] eqn:Ev.
      { by intros [= <- <- <-]. }
      intros [= <- <- <-]. split.
      + intros id Hid Hn. apply validate_each_absent in Ev as [_ Ev].
        apply Ev; [done|]. destruct (m !! id) as [h|] eqn:Hm; [|done].
        exfalso. apply Hn. by eapply scan_text_hashes_sound.
      + intros id Hid.
        destruct (validate_each_subset _ _ _ _ _ _ Ev id Hid) as [Hin|Hin];
          [by apply elem_of_nil in Hin|done].
    - by intros [= <- <- <-]. }
  split; [done|]. split; [done|].
  intros ix Hc Hw Hix Hemb Hlen.
  destruct (scan_text_hashes_complete index_name doc_ids fuel w ix)
    as [w1 Escan]; try done.
  { apply Forall_forall. intros [k src] [Hin Hm]%elem_of_snapshot. simpl in *.
    apply (Hemb k src Hin). by apply bool_decide_unpack in Hm. }
  { unfold scan_fuel in Hf. rewrite Hix in Hf. lia. }
  destruct (Hold2 _ _ Hc Escan Hlen) as [-> Hvalid].
  split; [done|].
  set (m := record_hashes ∅ (snapshot_of ix (TermsDocId doc_ids))) in *.
  split_and!.
  - intros id h Hfp. rewrite elem_of_invalid_of. split.
    + intros (i & text & Hi & Ht & Hm). exists i, text. split_and!; try done.
      unfold mismatch in Hm. simpl in Hm. subst m.
      rewrite (fingerprinted_scanned ix doc_ids id h) in Hm; [done|done|].
      by eapply list_elem_of_lookup_2.
    + intros (i & text & Hi & Ht & Hne). exists i, text. split_and!; try done.
      unfold mismatch. simpl. subst m.
      rewrite (fingerprinted_scanned ix doc_ids id h); [done|done|].
      by eapply list_elem_of_lookup_2.
  - intros id Hnone. split; [apply Hsub|].
    intros Hid. apply elem_of_invalid_of.
    apply list_elem_of_lookup in Hid as [i Hi].
    destruct (expected_texts !! i) as [text|] eqn:Ht; cycle 1.
    { apply lookup_ge_None in Ht. apply lookup_lt_Some in Hi. lia. }
    exists i, text. split_and!; try done.
    unfold mismatch. simpl. subst m. by rewrite unstored_scanned.
  - intros Hk. unfold invalid_of. f_equal. apply filter_ext_elem.
    intros [id text] Hin.
    apply elem_of_lookup_zip_with in Hin as (i & y & z & [= <- <-] & Hi & _).
    unfold mismatch, stale. simpl. subst m.
    rewrite hashes_scanned; [|done|by eapply list_elem_of_lookup_2].
    by destruct (docs ix !! id).
Qed.

Lemma absent_ids_are_invalid_witness :
  (scan_fuel synced_world "embeddings_duplicate_test" <= 3)%nat
  /\ exists all_valid invalid_ids w',
       validate_embeddings_integrity client "embeddings_duplicate_test"
         ["doc_test_001"; "doc_test_404"]%string ["first"; "none"]%string 3
         synced_world
       = Ok (all_valid, invalid_ids) w'
       /\ forall doc_id,
            doc_id ∈ invalid_ids ->
            doc_id ∈ ["doc_test_001"; "doc_test_404"]%string.
Proof.
  assert (scan_fuel synced_world "embeddings_duplicate_test" <= 3)%nat as H.
  { vm_compute. lia. }
  split; [exact H|].
  destruct (absent_ids_are_invalid client "embeddings_duplicate_test"
              ["doc_test_001"; "doc_test_404"]%string ["first"; "none"]%string
              3 synced_world H)
    as (all_valid & invalid_ids & w' & E & _ & _ & _ & Hsub & _).
  exists all_valid, invalid_ids, w'. split; [exact E|exact Hsub].
Defined.

Example absent_id_reported :
  outcome_value
    (validate_embeddings_integrity client "embeddings_duplicate_test"
       ["doc_test_001"; "doc_test_404"]%string ["first"; "none"]%string 3
       synced_world)
  = Some (false, ["doc_test_404"]%string).
Proof. vm_compute. reflexivity. Qed.

(* --------------------------------------------------------------------- *)
(** ** Fingerprints *)
(* --------------------------------------------------------------------- *)

Lemma stamped_scanned ix ids id text :
  stamped ix id text -> id ∈ ids ->
  record_hashes ∅ (snapshot_of ix (TermsDocId ids)) !! id
  = Some (_generate_text_hash text).
Proof.
  intros [(k & src & Hk & Hid) Hall] Hin. apply record_hashes_present.
  - exists (k, src). split; [|done]. apply elem_of_snapshot. split; [done|].
    simpl. rewrite Hid. by apply bool_decide_pack.
  - intros [k' src'] Hin' Hid'. simpl in *.
    apply elem_of_snapshot in Hin' as [Hk' _].
    specialize (Hall k' src' Hk' Hid'). destruct src'; by simplify_eq/=.
Qed.

(** C4, as amended.  Integrity detection is as fine as the fingerprint.
    Take a connected client, a backend whose requests succeed, and ids
    paired with texts.  Then the validator returns, and for every id
    whose stored record was stamped with the fingerprint of a text [T]:
    the id is in the invalid list exactly when it is paired with some
    text whose fingerprint differs from that of [T].  So a text [T'] with
    another fingerprint is always detected, the original [T] never is,
    and when every pair matches the invalid list is empty. *)
Theorem integrity_detection (self : ElasticsearchEmbeddingsCache)
    (index_name : string) (ix : es_index) (doc_ids expected_texts : list string)
    (fuel : nat) (w : world) :
  connected self = true ->
  healthy w ->
  indices w !! index_name = Some ix ->
  map_Forall (fun _ src => source_doc_id src ∈ doc_ids -> is_embedding src)
    (docs ix) ->
  length doc_ids = length expected_texts ->
  (size (docs ix) < fuel)%nat ->
  exists all_valid invalid_ids w',
    validate_embeddings_integrity self index_name doc_ids expected_texts fuel w
    = Ok (all_valid, invalid_ids) w'
    /\ (all_valid = true <-> invalid_ids = [])
    /\ (forall doc_id text,
          stamped ix doc_id text ->
          (doc_id ∈ invalid_ids
           <-> exists i text',
                 doc_ids !! i = Some doc_id /\ expected_texts !! i = Some text'
                 /\ _generate_text_hash text' <> _generate_text_hash text))
    /\ ((forall i doc_id text,
           doc_ids !! i = Some doc_id -> expected_texts !! i = Some text ->
           stamped ix doc_id text) ->
        invalid_ids = []).
Proof.
  intros Hc Hw Hix Hemb Hlen Hf. rewrite validate_eq by done.
  destruct (scan_text_hashes_complete index_name doc_ids fuel w ix)
    as [w' ->]; try done.
  { apply Forall_forall. intros [k src] Hin.
    apply elem_of_snapshot in Hin as [Hk Hm]. simpl in *.
    apply bool_decide_unpack in Hm. by apply (Hemb k src). }
  rewrite validate_each_spec by (rewrite drop_0; lia). rewrite drop_0. simpl.
  eexists _, _, w'. split; [done|]. split.
  { rewrite bool_decide_eq_true. apply length_zero_iff_nil. }
  assert (forall id text, stamped ix id text ->
            (id ∈ invalid_of (record_hashes ∅ (snapshot_of ix (TermsDocId doc_ids)))
                    doc_ids expected_texts
             <-> exists i text',
                   doc_ids !! i = Some id /\ expected_texts !! i = Some text'
                   /\ _generate_text_hash text' <> _generate_text_hash text))
    as Hiff.
  { intros id text Hst. rewrite elem_of_invalid_of.
    split; intros (i & text' & Hi & Ht & Hm); exists i, text';
      (split; [done|]); (split; [done|]);
      unfold mismatch in *; simpl in *;
      rewrite (stamped_scanned ix doc_ids id text) in *; try done;
      by eapply list_elem_of_lookup_2. }
  split; [exact Hiff|].
  intros Hall. apply elem_of_nil_inv. intros id Hin.
  pose proof Hin as Hin'.
  apply elem_of_invalid_of in Hin' as (i & text & Hi & Ht & _).
  apply (Hiff id text (Hall i id text Hi Ht)) in Hin
    as (j & text' & Hj & Ht' & Hne).
  pose proof (Hall i id text Hi Ht) as [_ H1].
  pose proof (Hall j id text' Hj Ht') as [(k & src & Hk & Hid) H2].
  specialize (H1 k src Hk Hid). specialize (H2 k src Hk Hid). congruence.
Qed.

Lemma integrity_detection_witness :
  exists all_valid invalid_ids w',
    validate_embeddings_integrity client "embeddings_integrity_test"
      ["doc_integrity_001"%string] ["another text"%string] 2 stamped_world
    = Ok (all_valid, invalid_ids) w'
    /\ (all_valid = true <-> invalid_ids = []).
Proof.
  destruct (integrity_detection client "embeddings_integrity_test"
              stamped_index ["doc_integrity_001"%string]
              ["another text"%string] 2 stamped_world)
    as (all_valid & invalid_ids & w' & E & Hv & _).
  - reflexivity.
  - unfold healthy. vm_compute. constructor.
  - vm_compute. reflexivity.
  - eapply bool_decide_unpack. vm_compute. exact I.
  - reflexivity.
  - vm_compute. lia.
  - exists all_valid, invalid_ids, w'. split; [exact E|exact Hv].
Defined.

(** RFC 1321, appendix A.5. *)
Example md5_empty : MD5.hexdigest "" = "d41d8cd98f00b204e9800998ecf8427e"%string.
Proof. vm_compute. reflexivity. Qed.

Example md5_abc : MD5.hexdigest "abc" = "900150983cd24fb0d6963f7d28e17f72"%string.
Proof. vm_compute. reflexivity. Qed.

Example md5_alphabet :
  MD5.hexdigest "abcdefghijklmnopqrstuvwxyz"
  = "c3fcd3d76192e4007dfb496cca67e13b"%string.
Proof. vm_compute. reflexivity. Qed.

Example md5_two_blocks :
  MD5.hexdigest
    "12345678901234567890123456789012345678901234567890123456789012345678901234567890"
  = "57edf4a22be3c955ac49da2e2107b67a"%string.
Proof. vm_compute. reflexivity. Qed.

Lemma md5_collision :
  collision_a <> collision_b
  /\ _generate_text_hash collision_a = _generate_text_hash collision_b
  /\ _generate_text_hash collision_a = "faad49866e9498fc1719f5289e7a0269"%string.
Proof. split; [done|]. split; vm_compute; reflexivity. Qed.

(** C4 as stated fails: [save_embeddings] stores a record stamped with
    the fingerprint of [collision_a]; validating its id against the
    different text [collision_b] reports every id valid, since the two
    texts have the same MD5 digest.  So it is not the case that every
    text other than the original is detected. *)
Lemma integrity_detection_refuted :
  outcome_value
    (save_embeddings client "embeddings_integrity_test" ones
       ["doc_integrity_001"%string] [collision_a] "test_model" "1.0" 2
       empty_world) = Some true
  /\ stamped stamped_index "doc_integrity_001" collision_a
  /\ outcome_value
       (validate_embeddings_integrity client "embeddings_integrity_test"
          ["doc_integrity_001"%string] [collision_b] 2 stamped_world)
     = Some (true, [])
  /\ ~ (forall text',
          text' <> collision_a ->
          forall all_valid invalid_ids w',
            validate_embeddings_integrity client "embeddings_integrity_test"
              ["doc_integrity_001"%string] [text'] 2 stamped_world
            = Ok (all_valid, invalid_ids) w' ->
            "doc_integrity_001"%string ∈ invalid_ids).
Proof.
  split; [vm_compute; reflexivity|]. split; [|split].
  - assert (docs stamped_index
            = {[ "doc_integrity_001"%string :=
                   EmbeddingSource "doc_integrity_001" (replicate 50 1%Q)
                     (Metadata "test_model" "1.0" 0 50
                        (_generate_text_hash collision_a)) ]}) as Hd.
    { vm_compute. reflexivity. }
    split.
    + eexists _, _. rewrite Hd. split; [apply lookup_singleton_eq|done].
    + intros k src. rewrite Hd. intros Hk _.
      apply lookup_singleton_Some in Hk as [_ <-]. reflexivity.
  - vm_compute. reflexivity.
  - intros H.
    assert (validate_embeddings_integrity client "embeddings_integrity_test"
              ["doc_integrity_001"%string] [collision_b] 2 stamped_world
            = Ok (true, [])
                (outcome_world
                   (validate_embeddings_integrity client
                      "embeddings_integrity_test"
                      ["doc_integrity_001"%string] [collision_b] 2
                      stamped_world) empty_world)) as E.
    { vm_compute. reflexivity. }
    apply H in E; [|done]. by apply elem_of_nil in E.
Qed.

(* --------------------------------------------------------------------- *)
(** ** Synchronisation *)
(* --------------------------------------------------------------------- *)

Lemma try_except_Ok_true (m : M bool) w w' :
  try_except m (fun _ => mret false) w = Ok true w' -> m w = Ok true w'.
Proof. rewrite try_except_eq. by destruct (m w). Qed.

Lemma create_index_true self index w w' :
  create_index self index w = Ok true w' ->
  connected self = true
  /\ is_Some (config_lookup index indices_config)
  /\ is_Some (indices w' !! index)
  /\ (well_keyed w index -> well_keyed w' index).
Proof.
  unfold create_index. destruct (connected self); cbn [negb]; [|by intros [= ?]].
  destruct (config_lookup index indices_config) as [mapping|]; [|by intros [= ?]].
  intros H. apply try_except_Ok_true in H. revert H.
  rewrite bind_eq, check_index_exists_eq.
  destruct (negb (next_fails w) && _) eqn:Hex.
  - intros [= <-]. apply andb_true_iff in Hex as [_ Hex].
    apply bool_decide_eq_true in Hex. by split_and!.
  - rewrite bind_eq. unfold es_indices_create. rewrite request_eq.
    destruct (next_fails (after_request w)); [done|]. simpl.
    destruct (indices w !! index) eqn:Hix; [done|].
    intros [= <-]. simpl. split_and!; try done.
    + eexists. apply lookup_insert_eq.
    + intros _ ix. simpl. rewrite lookup_insert_eq. intros [= <-].
      unfold keyed. simpl. apply map_Forall_empty.
Qed.

Lemma create_index_existing self index w mapping :
  connected self = true -> config_lookup index indices_config = Some mapping ->
  healthy w -> is_Some (indices w !! index) ->
  create_index self index w = Ok true (after_request w).
Proof.
  intros Hc Hcfg Hw Hix. unfold create_index. rewrite Hc, Hcfg. cbn [negb].
  rewrite try_except_eq, bind_eq, check_index_exists_eq, healthy_next by done.
  by rewrite bool_decide_eq_true_2.
Qed.

Lemma build_bulk_data_inv index emb ids texts mt mv now missing :
  forall bulk_data w data w',
    build_bulk_data index emb ids texts mt mv now missing bulk_data w
    = Ok data w' ->
    indices w' = indices w
    /\ exists new,
         data = bulk_data ++ new /\ Forall (action_for index) new
         /\ a_id <$> new = missing.
Proof.
  induction missing as [|id missing IH]; intros bulk_data w data w'; simpl.
  { intros [= <- <-]. split; [done|]. exists []. by rewrite app_nil_r. }
  rewrite bind_eq. destruct (list_index id ids) as [e|idx]; [done|]. simpl.
  rewrite bind_eq. destruct (getitem texts idx) as [e|text]; [done|]. simpl.
  rewrite bind_eq. destruct (getitem (rows emb) idx) as [e|row]; [done|]. simpl.
  rewrite bind_eq.
  destruct (norm_is_zero row); simpl; intros H; apply IH in H as (Hi & new & -> & Hnew & Hids);
    (split; [done|]); eexists (_ :: new); rewrite <-app_assoc;
    (split; [done|]); (split; [by constructor|]); by rewrite fmap_cons, Hids.
Qed.

Lemma bulk_from_failed chunk_size actions :
  forall room success failed w n failed' w',
    bulk_from chunk_size room actions success failed w = Ok (n, failed') w' ->
    exists extra, failed' = failed ++ extra.
Proof.
  induction actions as [|a actions IH]; intros room success failed w n failed' w'; simpl.
  { intros [= <- <- <-]. exists []. by rewrite app_nil_r. }
  assert (forall room' w0,
            (let '(ok, w1) := index_action a w0 in
             if ok
             then bulk_from chunk_size room' actions (success + 1) failed w1
             else bulk_from chunk_size room' actions success (failed ++ [a]) w1)
            = Ok (n, failed') w' ->
            exists extra, failed' = failed ++ extra) as Hitem.
  { intros room' w0. destruct (index_action a w0) as [[] w1]; intros H;
      apply IH in H as [extra ->]; [eauto|].
    rewrite <-app_assoc. eauto. }
  destruct room as [|room]; [|apply Hitem].
  rewrite bind_eq, transport_eq. destruct (next_fails w); [done|]. apply Hitem.
Qed.

Lemma index_action_accepted index a w w' :
  index_action a w = (true, w') -> a_index a = index ->
  exists ix,
    indices w !! index = Some ix
    /\ indices w'
       = <[index := EsIndex (dims ix) (<[a_id a := a_source a]> (docs ix))
                      (size_in_bytes ix)]> (indices w).
Proof.
  unfold index_action. intros H <-.
  destruct (indices w !! a_index a) as [ix|]; [|done].
  destruct (index_accepts ix (a_source a)); [|done].
  injection H as <-. eauto.
Qed.

Lemma bulk_from_success index chunk_size actions :
  forall room success w n w' ix,
    bulk_from chunk_size room actions success [] w = Ok (n, []) w' ->
    Forall (action_for index) actions ->
    indices w !! index = Some ix -> keyed ix ->
    exists ix',
      indices w' !! index = Some ix' /\ keyed ix'
      /\ (forall k, is_Some (docs ix !! k) -> is_Some (docs ix' !! k))
      /\ (forall a, a ∈ actions -> is_Some (docs ix' !! a_id a)).
Proof.
  induction actions as [|a actions IH]; intros room success w n w' ix; simpl.
  { intros [= <- <-] _ Hix Hk. exists ix. split_and!; try done.
    intros a Ha. by apply elem_of_nil in Ha. }
  intros H Hall Hix Hk. apply Forall_cons in Hall as [[Ha1 Ha2] Hall].
  assert (exists room' w0,
            indices w0 = indices w
            /\ (let '(ok, w1) := index_action a w0 in
                if ok
                then bulk_from chunk_size room' actions (success + 1) [] w1
                else bulk_from chunk_size room' actions success ([] ++ [a]) w1)
               = Ok (n, []) w') as (room' & w0 & Hw0 & Hitem).
  { destruct room as [|room]; [|by eauto].
    revert H. rewrite bind_eq, transport_eq. destruct (next_fails w); [done|].
    intros H. by exists (Nat.pred chunk_size), (after_request w). }
  clear H. destruct (index_action a w0) as [[] w1] eqn:Eact; cycle 1.
  { apply bulk_from_failed in Hitem as [extra Hextra]. by destruct extra. }
  destruct (index_action_accepted index a w0 w1 Eact Ha1) as (ix0 & Hix0 & Hw1).
  rewrite Hw0, Hix in Hix0. injection Hix0 as <-.
  edestruct (IH room' (success + 1) w1 n w') as (ix' & Hix' & Hk' & Hkeep & Hnew);
    [done|done| | |].
  - rewrite Hw1. apply lookup_insert_eq.
  - unfold keyed in *. simpl. by apply map_Forall_insert_2.
  - exists ix'. split_and!; try done.
    + intros k Hk0. apply Hkeep. simpl.
      destruct (decide (a_id a = k)) as [->|]; [rewrite lookup_insert_eq; eauto|].
      by rewrite lookup_insert_ne.
    + intros a' Ha'. apply elem_of_cons in Ha' as [->|Ha']; [|auto].
      apply Hkeep. simpl. rewrite lookup_insert_eq. eauto.
Qed.

Lemma lift_Ok_inv {A} (r : exn + A) w a w' :
  lift r w = Ok a w' -> r = inr a /\ w' = w.
Proof. destruct r; [done|]. by intros [= <- <-]. Qed.

Lemma covers_of_stored w index ix ids :
  indices w !! index = Some ix -> keyed ix ->
  (forall x, x ∈ ids -> stored_under w index x) ->
  covers w index ids.
Proof.
  intros Hix Hk Hs. exists ix. split_and!; try done.
  intros id Hid. destruct (Hs id Hid) as (ix' & k & src & Hix' & Hsrc & Hd).
  rewrite Hix in Hix'. injection Hix' as <-.
  rewrite (Hk k src Hsrc) in Hd. subst k. eauto.
Qed.

Lemma first_sync_covers self index emb ids texts mt mv fuel w w' :
  well_keyed w index ->
  save_embeddings self index emb ids texts mt mv fuel w = Ok true w' ->
  connected self = true
  /\ is_Some (config_lookup index indices_config)
  /\ covers w' index ids.
Proof.
  intros Hk. unfold save_embeddings.
  destruct (connected self) eqn:Hc; cbn [negb]; [|by intros [= ?]].
  rewrite bind_eq.
  destruct (create_index self index w) as [created w1|e w1|] eqn:Ecreate;
    [|done..].
  destruct created; cbn [negb]; [|by intros [= ?]].
  apply create_index_true in Ecreate as (_ & Hcfg & [ix1 Hix1] & Hk1).
  specialize (Hk1 Hk). pose proof (Hk1 ix1 Hix1) as Hkeyed.
  intros H. split; [done|]. split; [done|].
  apply try_except_Ok_true in H.
  apply bind_Ok_inv in H as ([[all ex] miss] & w2 & Echeck & H).
  apply check_cases in Echeck as [Hi2 Hcases]; [|done].
  assert (forall x, x ∈ ex -> stored_under w2 index x) as Hex.
  { destruct Hcases as [(_ & -> & _)|(_ & _ & Hs)].
    - intros x Hx. by apply elem_of_nil in Hx.
    - intros x Hx. unfold stored_under. rewrite Hi2. by apply Hs. }
  assert (miss = [] -> covers w2 index ids) as Hdone.
  { intros ->. apply (covers_of_stored w2 index ix1); [by rewrite Hi2|done|].
    destruct Hcases as [(_ & _ & <-)|(Hm & _ & _)].
    - intros x Hx. by apply elem_of_nil in Hx.
    - intros x Hx. apply Hex. by eapply missing_of_nil. }
  destruct all.
  { injection H as <-. apply Hdone.
    destruct Hcases as [(? & _)|(_ & Hm & _)]; [done|by apply Hm]. }
  apply bind_Ok_inv in H as (missing' & w3 & Emid & H).
  assert (indices w3 = indices w2 /\ forall x, x ∈ miss -> x ∈ missing')
    as [Hi3 Hsub].
  { destruct ex as [|x0 ex0]; [by injection Emid as <- <-|].
    apply bind_Ok_inv in Emid as (existing_texts & w2' & Et & Emid).
    apply lift_Ok_inv in Et as [_ ->].
    apply bind_Ok_inv in Emid as ([valid invalid] & w3' & Ev & Emid).
    apply (reads_Ok _ _ _ _ (reads_validate _ _ _ _ _)) in Ev as [Hi _].
    destruct valid; injection Emid as <- <-; split; try done.
    intros x Hx. apply elem_of_app. auto. }
  destruct missing' as [|m0 ms].
  { injection H as <-.
    assert (miss = []) as Hm.
    { destruct miss as [|x miss]; [done|].
      specialize (Hsub x (list_elem_of_here _ _)). by apply elem_of_nil in Hsub. }
    destruct (Hdone Hm) as (ix & Hix & Hkx & Hall).
    exists ix. by rewrite Hi3. }
  apply bind_Ok_inv in H as (now & w4 & Enow & H).
  injection Enow as _ <-.
  apply bind_Ok_inv in H as (data & w5 & Edata & H).
  apply build_bulk_data_inv in Edata as (Hi5 & new & -> & Hnew & Hids).
  simpl in Hi5, new.
  apply bind_Ok_inv in H as ([count failed] & w6 & Ebulk & H).
  destruct failed as [|f failed]; [|by injection H].
  injection H as _ <-.
  destruct (bulk_from_success index 1000 new 0 0 w5 count w6 ix1 Ebulk Hnew)
    as (ix' & Hix' & Hk' & Hkeep & Hwritten).
  { by rewrite Hi5, Hi3, Hi2. }
  { done. }
  exists ix'. split_and!; try done.
  intros id Hid. destruct (decide (id ∈ m0 :: ms)) as [Hin|Hout].
  - rewrite <-Hids in Hin. apply list_elem_of_fmap in Hin as (a & -> & Ha).
    by apply Hwritten.
  - apply Hkeep.
    assert (stored_under w2 index id) as (ix & k & src & Hix & Hsrc & Hd).
    { apply Hex. destruct Hcases as [(_ & _ & ->)|(-> & _ & _)].
      - exfalso. auto.
      - destruct (decide (id ∈ ex)); [done|]. exfalso. apply Hout, Hsub.
        by apply elem_of_missing_of. }
    rewrite Hi2, Hix1 in Hix. injection Hix as <-.
    rewrite (Hkeyed k src Hsrc) in Hd. subst k. eauto.
Qed.

Lemma second_sync_noop self index mapping emb ids texts mt mv fuel w :
  connected self = true ->
  config_lookup index indices_config = Some mapping ->
  healthy w -> covers w index ids ->
  (scan_fuel w index <= fuel)%nat ->
  exists w',
    save_embeddings self index emb ids texts mt mv fuel w = Ok true w'
    /\ indices w' = indices w /\ clock w' = clock w /\ healthy w'.
Proof.
  intros Hc Hcfg Hw (ix & Hix & Hk & Hall) Hf.
  unfold save_embeddings. rewrite Hc. cbn [negb].
  rewrite bind_eq, (create_index_existing self index w mapping) by eauto.
  cbn [negb]. rewrite try_except_eq, bind_eq.
  rewrite check_embeddings_exist_eq by done.
  rewrite healthy_next by by apply healthy_after.
  simpl. rewrite bool_decide_eq_true_2 by (rewrite Hix; eauto). simpl.
  destruct (scan_existing_ids_complete index ids fuel
              (after_request (after_request w)) ix) as [w' E].
  { by do 2 apply healthy_after. }
  { done. }
  { unfold scan_fuel in Hf. rewrite Hix in Hf. lia. }
  rewrite E.
  apply (reads_Ok _ _ _ _ (reads_scan_existing_ids _ _ _)) in E
    as (Hi & Hclock & Hh).
  rewrite missing_of_covered.
  - simpl. exists w'. split_and!; [done|done|done|].
    apply Hh. by do 2 apply healthy_after.
  - intros id Hid. destruct (Hall id Hid) as [src Hsrc].
    apply list_elem_of_fmap. exists (id, src). simpl. split.
    + symmetry. by apply (Hk id src).
    + apply elem_of_snapshot. split; [done|]. simpl.
      apply bool_decide_pack. by rewrite (Hk id src Hsrc).
Qed.

(** C3, as amended.  Idempotence of [save_embeddings] (which has no
    force flag) on a collection whose records are stored under their own
    id ([_id] is [doc_id], as [save_dataset] and [save_embeddings] write
    them): after one call that returned success, an immediately repeated
    call with the same batch, whose requests reach the backend, returns
    success without writing: the stored records are the very same (so is
    their count), and the clock that stamps a bulk write was not even
    read.  Without that condition on the collection the repeated call
    can write, see [sync_not_idempotent_misfiled]. *)
Theorem sync_idempotent (self : ElasticsearchEmbeddingsCache)
    (index_name : string) (embeddings : ndarray) (doc_ids texts : list string)
    (model_type model_version : string) (fuel fuel' : nat) (w w1 : world) :
  well_keyed w index_name ->
  save_embeddings self index_name embeddings doc_ids texts model_type
    model_version fuel w = Ok true w1 ->
  healthy w1 ->
  (scan_fuel w1 index_name <= fuel')%nat ->
  exists w2,
    save_embeddings self index_name embeddings doc_ids texts model_type
      model_version fuel' w1 = Ok true w2
    /\ indices w2 = indices w1
    /\ clock w2 = clock w1
    /\ forall n w1',
         es_count index_name w1 = Ok n w1' ->
         exists w2', es_count index_name w2 = Ok n w2'.
Proof.
  intros Hk Hfirst Hw1 Hf.
  apply first_sync_covers in Hfirst as (Hc & [mapping Hcfg] & Hcov); [|done].
  destruct (second_sync_noop self index_name mapping embeddings doc_ids texts
              model_type model_version fuel' w1)
    as (w2 & E & Hi & Hclock & Hw2); try done.
  exists w2. split_and!; try done.
  intros n w1'. unfold es_count.
  rewrite !request_eq, !healthy_next by done. simpl. rewrite Hi.
  destruct (indices w1 !! index_name); [|done]. intros [= <- _]. eauto.
Qed.

Lemma sync_idempotent_witness :
  exists w2,
    save_embeddings client "embeddings_duplicate_test" ones
      ["doc_test_001"; "doc_test_002"]%string ["first"; "second"]%string
      "test_model" "1.0" 3 synced_world = Ok true w2
    /\ indices w2 = indices synced_world.
Proof.
  destruct (sync_idempotent client "embeddings_duplicate_test" ones
              ["doc_test_001"; "doc_test_002"]%string
              ["first"; "second"]%string "test_model" "1.0" 3 3
              empty_world synced_world)
    as (w2 & E & Hi & _).
  - intros ix Hix. vm_compute in Hix. discriminate Hix.
  - vm_compute. reflexivity.
  - unfold healthy. vm_compute. constructor.
  - vm_compute. lia.
  - exists w2. split; [exact E|exact Hi].
Defined.

(** The first call writes the two records, the second none. *)
Example sync_twice :
  size <$> (docs <$> (indices empty_world !! "embeddings_duplicate_test"%string))
  = None
  /\ size <$> (docs <$> (indices synced_world !! "embeddings_duplicate_test"%string))
    = Some 2%nat
  /\ clock empty_world = 0%nat /\ clock synced_world = 1%nat
  /\ clock (outcome_world
              (save_embeddings client "embeddings_duplicate_test" ones
                 ["doc_test_001"; "doc_test_002"]%string
                 ["first"; "second"]%string "test_model" "1.0" 3 synced_world)
              empty_world) = 1%nat.
Proof. vm_compute. done. Qed.

(** C3 as stated fails.  The collection holds one record, stored under
    the [_id] [doc_test_001] and carrying the [doc_id] [doc_test_002].  A
    first sync of the batch [doc_test_001; doc_test_002] succeeds: the
    filter on the field [doc_id] finds [doc_test_002], so only
    [doc_test_001] is written, over the one record (upsert by [_id]).
    The repeated sync then finds [doc_test_002] missing and takes the bulk
    path: it reads the clock and the count goes from 1 to 2. *)
Lemma sync_not_idempotent_misfiled :
  outcome_value
    (save_embeddings client "embeddings_duplicate_test" ones
       ["doc_test_001"; "doc_test_002"]%string ["first"; "second"]%string
       "test_model" "1.0" 3 misfiled_world) = Some true
  /\ healthy misfiled_once
  /\ outcome_value
       (save_embeddings client "embeddings_duplicate_test" ones
          ["doc_test_001"; "doc_test_002"]%string ["first"; "second"]%string
          "test_model" "1.0" 3 misfiled_once) = Some true
  /\ outcome_value (es_count "embeddings_duplicate_test" misfiled_world)
     = Some 1
  /\ outcome_value (es_count "embeddings_duplicate_test" misfiled_once)
     = Some 1
  /\ outcome_value (es_count "embeddings_duplicate_test" misfiled_twice)
     = Some 2
  /\ clock misfiled_once = 2%nat /\ clock misfiled_twice = 3%nat
  /\ ~ (forall (self : ElasticsearchEmbeddingsCache) (index_name : string)
               (embeddings : ndarray) (doc_ids texts : list string)
               (model_type model_version : string) (fuel fuel' : nat)
               (w w1 : world),
          save_embeddings self index_name embeddings doc_ids texts model_type
            model_version fuel w = Ok true w1 ->
          healthy w1 ->
          (scan_fuel w1 index_name <= fuel')%nat ->
          exists w2,
            save_embeddings self index_name embeddings doc_ids texts
              model_type model_version fuel' w1 = Ok true w2
            /\ clock w2 = clock w1
            /\ forall n w1',
                 es_count index_name w1 = Ok n w1' ->
                 exists w2', es_count index_name w2 = Ok n w2').
Proof.
  assert (save_embeddings client "embeddings_duplicate_test" ones
            ["doc_test_001"; "doc_test_002"]%string ["first"; "second"]%string
            "test_model" "1.0" 3 misfiled_world = Ok true misfiled_once) as E1.
  { vm_compute. reflexivity. }
  assert (save_embeddings client "embeddings_duplicate_test" ones
            ["doc_test_001"; "doc_test_002"]%string ["first"; "second"]%string
            "test_model" "1.0" 3 misfiled_once = Ok true misfiled_twice) as E2.
  { vm_compute. reflexivity. }
  assert (healthy misfiled_once) as Hh by (vm_compute; constructor).
  split; [by rewrite E1|]. split; [exact Hh|]. split; [by rewrite E2|].
  do 5 (split; [vm_compute; reflexivity|]).
  intros H.
  destruct (H client "embeddings_duplicate_test"%string ones
              ["doc_test_001"; "doc_test_002"]%string
              ["first"; "second"]%string "test_model"%string "1.0"%string
              3%nat 3%nat misfiled_world misfiled_once E1 Hh)
    as (w2 & E & Hclock & _).
  { vm_compute. lia. }
  rewrite E2 in E.
  assert (clock misfiled_once = 2%nat) as Hc1 by (vm_compute; reflexivity).
  assert (clock misfiled_twice = 3%nat) as Hc2 by (vm_compute; reflexivity).
  congruence.
Qed.

(** What [save_embeddings] prepares for a row of zero norm: the vector of
    the samples drawn from the generator, whatever they are. *)
Lemma zero_row_replaced_by_sample index_name embeddings doc_ids texts
    model_type model_version now doc_id idx text row w :
  list_index doc_id doc_ids = inr idx ->
  getitem texts idx = inr text ->
  getitem (rows embeddings) idx = inr row ->
  norm_is_zero row = true ->
  build_bulk_data index_name embeddings doc_ids texts model_type
    model_version now [doc_id] [] w
  = Ok [Action index_name doc_id
          (EmbeddingSource doc_id (rng w <$> seq (rng_pos w) (length row))
             (Metadata model_type model_version now (shape1 embeddings)
                (_generate_text_hash text)))]
      (set_rng_pos (rng_pos w + length row) w).
Proof.
  intros Hidx Htext Hrow Hzero. simpl.
  rewrite bind_eq, Hidx. simpl. rewrite bind_eq, Htext. simpl.
  rewrite bind_eq, Hrow. simpl. by rewrite bind_eq, Hzero.
Qed.

(* --------------------------------------------------------------------- *)
(** ** Status report and empty collections *)
(* --------------------------------------------------------------------- *)

Lemma status_loop_step name rest entries td ts w :
  status_loop (name :: rest) entries td ts w =
  match _check_index_exists name w with
  | Ok true w1 =>
      match read_stats name w1 with
      | Ok (doc_count, size_bytes) w2 =>
          let size_mb := (inject_Z size_bytes / inject_Z (1024 * 1024))%Q in
          status_loop rest
            (entries ++ [(name, IndexStatus true doc_count (round2 size_mb))])
            (td + doc_count) (ts + size_mb)%Q w2
      | Raised e w2 => Raised e w2
      | OutOfFuel => OutOfFuel
      end
  | Ok false w1 =>
      status_loop rest (entries ++ [(name, IndexStatus false 0 0%Q)]) td ts w1
  | Raised e w1 => Raised e w1
  | OutOfFuel => OutOfFuel
  end.
Proof.
  simpl. rewrite bind_eq.
  destruct (_check_index_exists name w) as [[] w1|e w1|]; try done.
  unfold read_stats. rewrite !bind_eq.
  destruct (es_count name w1) as [n w2|e w2|]; try done.
  rewrite !bind_eq. by destruct (es_indices_stats name w2).
Qed.

Lemma status_loop_app pre post :
  forall entries td ts w,
    status_loop (pre ++ post) entries td ts w =
    match status_loop pre entries td ts w with
    | Ok (entries', td', ts') w' => status_loop post entries' td' ts' w'
    | Raised e w' => Raised e w'
    | OutOfFuel => OutOfFuel
    end.
Proof.
  induction pre as [|name pre IH]; intros entries td ts w; [done|].
  rewrite <-app_comm_cons, !status_loop_step.
  destruct (_check_index_exists name w) as [[] w1|e w1|]; try done.
  destruct (read_stats name w1) as [[n b] w2|e w2|]; try done.
Qed.

Lemma status_loop_entries names :
  forall entries td ts w,
    match status_loop names entries td ts w with
    | Ok (entries', _, _) _ => entries'.*1 = entries.*1 ++ names
    | Raised _ _ => True
    | OutOfFuel => False
    end.
Proof.
  induction names as [|name names IH]; intros entries td ts w.
  { simpl. by rewrite app_nil_r. }
  rewrite status_loop_step, check_index_exists_eq.
  destruct (negb _ && _).
  - unfold read_stats, es_count, es_indices_stats.
    rewrite !bind_eq, request_eq.
    destruct (next_fails _); [done|].
    destruct (indices _ !! name); [|done].
    rewrite !bind_eq, request_eq. destruct (next_fails _); [done|].
    simpl. destruct (indices _ !! name); [|done]. simpl.
    match goal with |- context [status_loop names ?e ?d ?s ?w'] =>
      specialize (IH e d s w'); destruct (status_loop names e d s w') as [[[e' ?] ?] ?|?|]
    end; try done.
    rewrite IH, fmap_app. simpl. by rewrite <-app_assoc.
  - match goal with |- context [status_loop names ?e ?d ?s ?w'] =>
      specialize (IH e d s w'); destruct (status_loop names e d s w') as [[[e' ?] ?] ?|?|]
    end; try done.
    rewrite IH, fmap_app. simpl. by rewrite <-app_assoc.
Qed.

Lemma get_cache_status_eq self w :
  connected self = true ->
  get_cache_status self w =
  match status_loop (indices_config.*1) [] 0 0%Q w with
  | Ok (entries, total_docs, total_size_mb) w' =>
      Ok (StatusReport entries total_docs (round2 total_size_mb)) w'
  | Raised e w' => Ok (StatusError e) w'
  | OutOfFuel => OutOfFuel
  end.
Proof.
  intros Hc. unfold get_cache_status. rewrite Hc. cbn [negb].
  rewrite try_except_eq, bind_eq.
  by destruct (status_loop _ _ _ _ _) as [[[? ?] ?] ?|?|].
Qed.

Lemma read_stats_eq name w :
  read_stats name w =
  if next_fails w then Raised ConnectionError (after_request w)
  else match indices w !! name with
       | None => Raised NotFoundError (after_request w)
       | Some ix =>
           if next_fails (after_request w)
           then Raised ConnectionError (after_request (after_request w))
           else Ok (Z.of_nat (size (docs ix)), size_in_bytes ix)
                  (after_request (after_request w))
       end.
Proof.
  unfold read_stats, es_count, es_indices_stats.
  rewrite bind_eq, request_eq. destruct (next_fails w); [done|]. simpl.
  destruct (indices w !! name) as [ix|] eqn:Hix; [|done].
  rewrite bind_eq, request_eq.
  destruct (next_fails (after_request w)); [done|]. simpl. by rewrite Hix.
Qed.

Lemma status_loop_healthy names :
  forall entries td ts w,
    healthy w ->
    exists r w', status_loop names entries td ts w = Ok r w'.
Proof.
  induction names as [|name rest IH]; intros entries td ts w Hw.
  { by eexists _, _. }
  rewrite status_loop_step, check_index_exists_eq, healthy_next by done.
  cbn [negb andb].
  destruct (indices w !! name) as [ix|] eqn:Hix.
  - rewrite bool_decide_eq_true_2 by eauto.
    rewrite read_stats_eq, !healthy_next by by repeat apply healthy_after.
    simpl. rewrite Hix. apply IH. by do 3 apply healthy_after.
  - rewrite bool_decide_eq_false_2 by (by intros [? ?]).
    apply IH. by apply healthy_after.
Qed.

Lemma status_loop_extends names :
  forall entries td ts w entries' td' ts' w',
    status_loop names entries td ts w = Ok (entries', td', ts') w' ->
    exists new, entries' = entries ++ new.
Proof.
  induction names as [|name rest IH]; intros entries td ts w entries' td' ts' w'.
  { intros [= <- <- <- <-]. exists []. by rewrite app_nil_r. }
  rewrite status_loop_step.
  destruct (_check_index_exists name w) as [[] w1|e w1|]; [| |done..].
  - destruct (read_stats name w1) as [[n b] w2|e w2|]; [|done..].
    intros H. apply IH in H as [new ->]. rewrite <-app_assoc. eauto.
  - intros H. apply IH in H as [new ->]. rewrite <-app_assoc. eauto.
Qed.

(** An error of the loop is the error of a count or statistics read. *)
Lemma status_loop_Raised names :
  forall entries td ts w e w',
    status_loop names entries td ts w = Raised e w' ->
    exists before index_name later entries1 td1 ts1 w1 w2,
      names = before ++ index_name :: later
      /\ status_loop before entries td ts w = Ok (entries1, td1, ts1) w1
      /\ _check_index_exists index_name w1 = Ok true w2
      /\ read_stats index_name w2 = Raised e w'.
Proof.
  induction names as [|name rest IH]; intros entries td ts w e w'; [done|].
  rewrite status_loop_step.
  destruct (_check_index_exists name w) as [[] w1|e1 w1|] eqn:Hex; [| | |done].
  - destruct (read_stats name w1) as [[n b] w2|e2 w2|] eqn:Hstats; [| |done].
    + intros H. apply IH in H
        as (before & x & later & en & tdn & tsn & wa & wb & -> & Hpre & Hx & Hr).
      exists (name :: before), x, later, en, tdn, tsn, wa, wb.
      split; [done|]. split; [|done].
      by rewrite status_loop_step, Hex, Hstats.
    + intros [= <- <-].
      by exists [], name, rest, entries, td, ts, w, w1.
  - intros H. apply IH in H
      as (before & x & later & en & tdn & tsn & wa & wb & -> & Hpre & Hx & Hr).
    exists (name :: before), x, later, en, tdn, tsn, wa, wb.
    split; [done|]. split; [|done].
    by rewrite status_loop_step, Hex.
  - rewrite check_index_exists_eq in Hex. done.
Qed.

(** C7, as amended.  The status report is all or nothing.  For a
    connected client [get_cache_status] always returns, either a single
    top-level error or a report with one entry for each registered
    collection, in order.  As soon as reading the count or the storage
    statistics of one existing collection raises, the whole result is
    that error: the entries gathered for the collections before it are
    dropped and the collections after it are not read; and an error
    result always is the error of such a read.  Only a failure of the
    existence probe is absorbed: the probe then answers "no" instead of
    raising, every report that is returned lists that collection as not
    existing with zero count and size, and a report is returned when the
    later requests reach the backend. *)
Theorem status_report_all_or_nothing (self : ElasticsearchEmbeddingsCache)
    (w : world) :
  connected self = true ->
  (exists r w',
     get_cache_status self w = Ok r w'
     /\ ((exists e, r = StatusError e)
         \/ exists entries total_docs total_size_mb,
              r = StatusReport entries total_docs total_size_mb
              /\ entries.*1 = indices_config.*1))
  /\ (forall before index_name later entries total_docs total_size_mb
             w1 w2 e w3,
        indices_config.*1 = before ++ index_name :: later ->
        status_loop before [] 0 0%Q w
        = Ok (entries, total_docs, total_size_mb) w1 ->
        _check_index_exists index_name w1 = Ok true w2 ->
        read_stats index_name w2 = Raised e w3 ->
        get_cache_status self w = Ok (StatusError e) w3)
  /\ (forall e w',
        get_cache_status self w = Ok (StatusError e) w' ->
        exists before index_name later entries total_docs total_size_mb w1 w2,
          indices_config.*1 = before ++ index_name :: later
          /\ status_loop before [] 0 0%Q w
             = Ok (entries, total_docs, total_size_mb) w1
          /\ _check_index_exists index_name w1 = Ok true w2
          /\ read_stats index_name w2 = Raised e w')
  /\ forall before index_name later entries total_docs total_size_mb w1,
       indices_config.*1 = before ++ index_name :: later ->
       status_loop before [] 0 0%Q w
       = Ok (entries, total_docs, total_size_mb) w1 ->
       next_fails w1 = true ->
       _check_index_exists index_name w1 = Ok false (after_request w1)
       /\ (forall entries' total_docs' total_size_mb' w',
             get_cache_status self w
             = Ok (StatusReport entries' total_docs' total_size_mb') w' ->
             (index_name, IndexStatus false 0 0%Q) ∈ entries')
       /\ (healthy (after_request w1) ->
           exists entries' total_docs' total_size_mb' w',
             get_cache_status self w
             = Ok (StatusReport entries' total_docs' total_size_mb') w').
Proof.
  intros Hc. rewrite get_cache_status_eq by done. split_and!.
  - pose proof (status_loop_entries (indices_config.*1) [] 0 0%Q w) as H.
    destruct (status_loop _ _ _ _ _) as [[[entries td] ts] w'|e w'|]; [| |done].
    + eexists _, _. split; [done|]. right. eauto.
    + eexists _, _. split; [done|]. left. eauto.
  - intros before name later entries td ts w1 w2 e w3 -> Hpre Hex Hstats.
    by rewrite status_loop_app, Hpre, status_loop_step, Hex, Hstats.
  - intros e w'.
    destruct (status_loop (indices_config.*1) [] 0 0%Q w)
      as [[[entries td] ts] w1|e1 w1|] eqn:E; [done| |done].
    intros [= <- <-]. by apply status_loop_Raised in E.
  - intros before name later entries td ts w1 Hsplit Hpre Hfail.
    assert (_check_index_exists name w1 = Ok false (after_request w1)) as Hex.
    { by rewrite check_index_exists_eq, Hfail. }
    split; [done|].
    rewrite Hsplit, status_loop_app, Hpre, status_loop_step, Hex. split.
    + intros entries' td' ts' w'.
      destruct (status_loop later _ _ _ _) as [[[en tdn] tsn] wn|en wn|] eqn:E;
        [|done..].
      intros [= <- <- <- <-].
      apply status_loop_extends in E as [new ->].
      rewrite !elem_of_app, list_elem_of_singleton. auto.
    + intros Hw.
      destruct (status_loop_healthy later
                  (entries ++ [(name, IndexStatus false 0 0%Q)]) td ts
                  (after_request w1) Hw) as ([[en tdn] tsn] & wn & ->).
      by eexists _, _, _, _.
Qed.

Lemma status_report_all_or_nothing_witness :
  connected client = true
  /\ exists r w', get_cache_status client count_fails_world = Ok r w'.
Proof.
  assert (connected client = true) as H by reflexivity.
  split; [exact H|].
  destruct (status_report_all_or_nothing client count_fails_world H)
    as [(r & w' & E & _) _].
  exists r, w'. exact E.
Defined.

(** A failed probe only hides its collection: the report goes on. *)
Example status_probe_failure_isolated :
  exists entries total_docs total_size_mb,
    outcome_value (get_cache_status client (dataset_world 3 [true]))
    = Some (StatusReport entries total_docs total_size_mb)
    /\ entries !! 0%nat
       = Some ("documents_dataset"%string, IndexStatus false 0 0%Q)
    /\ length entries = 9%nat.
Proof. eexists _, _, _. vm_compute. done. Qed.

(** C7 as stated fails: [documents_dataset] exists and reading its count
    fails; the result is the bare error, with no entry for any of the
    other eight registered collections.  So it is not the case that the
    other collections are still reported. *)
Lemma status_report_not_isolated :
  outcome_value (get_cache_status client count_fails_world)
  = Some (StatusError ConnectionError)
  /\ (forall index_name, ~ reports (StatusError ConnectionError) index_name)
  /\ ~ (forall r w',
          get_cache_status client count_fails_world = Ok r w' ->
          forall index_name,
            index_name ∈ indices_config.*1 ->
            index_name <> "documents_dataset"%string ->
            reports r index_name).
Proof.
  assert (forall index_name, ~ reports (StatusError ConnectionError) index_name)
    as Hnone.
  { intros name (entries & td & ts & st & H & _). discriminate H. }
  split; [vm_compute; reflexivity|]. split; [exact Hnone|].
  intros H.
  assert (get_cache_status client count_fails_world
          = Ok (StatusError ConnectionError)
              (outcome_world (get_cache_status client count_fails_world)
                 empty_world)) as E.
  { vm_compute. reflexivity. }
  apply (Hnone "embeddings_tfidf"%string).
  apply (H _ _ E); [|done].
  eapply bool_decide_unpack. vm_compute. exact I.
Qed.

Lemma load_all_documents_no_records w index_name ix batch_size fuel :
  healthy w -> indices w !! index_name = Some ix -> docs ix = ∅ ->
  0 < batch_size <= max_result_window -> (0 < fuel)%nat ->
  exists w',
    load_all_documents_from_elasticsearch index_name batch_size fuel w
    = Raised (KeyError "doc_id") w'.
Proof.
  intros Hw Hix Hempty Hb Hf.
  destruct (load_all_documents_scan_complete w index_name ix batch_size fuel)
    as (sid & w1 & E); try done.
  { rewrite Hempty, map_size_empty. lia. }
  rewrite Hempty, map_to_list_empty in E.
  unfold load_all_documents_from_elasticsearch. rewrite bind_eq, E, bind_eq.
  destruct (try_pass_clear_scroll sid w1) as [w2 ->]. simpl.
  rewrite bind_eq. destruct (try_pass_clear_scroll sid w2) as [w3 ->].
  by eexists.
Qed.

(** The sibling reader returns normally when no record matches. *)
Lemma check_embeddings_exist_no_match self index_name ix doc_ids fuel w :
  connected self = true -> healthy w -> indices w !! index_name = Some ix ->
  map_Forall (fun _ src => source_doc_id src ∉ doc_ids) (docs ix) ->
  (size (docs ix) < fuel)%nat ->
  exists w',
    check_embeddings_exist self index_name doc_ids fuel w
    = Ok (bool_decide (length doc_ids = 0%nat), [], doc_ids) w'.
Proof.
  intros Hc Hw Hix Hnone Hf. rewrite check_embeddings_exist_eq by done.
  rewrite healthy_next by done. simpl.
  rewrite bool_decide_eq_true_2 by (rewrite Hix; eauto).
  destruct (scan_existing_ids_complete index_name doc_ids fuel
              (after_request w) ix) as [w' ->]; try done.
  { by apply healthy_after. }
  assert (snapshot_of ix (TermsDocId doc_ids) = []) as ->.
  { apply elem_of_nil_inv. intros [k src] Hin.
    apply elem_of_snapshot in Hin as [Hk Hm]. simpl in Hm.
    apply bool_decide_unpack in Hm. by apply (Hnone k src). }
  simpl. exists w'. do 3 f_equal.
  - apply bool_decide_ext. f_equiv. f_equal. apply filter_all, Forall_forall.
    intros x _ Hx. by apply elem_of_nil in Hx.
  - apply filter_all, Forall_forall. intros x _ Hx. by apply elem_of_nil in Hx.
Qed.

(** C6.  On an existing collection without records the scan itself ends
    normally with no hit, but [load_all_documents_from_elasticsearch]
    raises [KeyError 'doc_id']: the frame built from no row has no
    column to sort by. *)
Theorem load_all_documents_empty_index :
  outcome_value
    (load_all_documents_scan "documents_dataset" 1000 1 empty_dataset_world)
  = Some (Completed 0%nat [])
  /\ exists w',
       load_all_documents_from_elasticsearch "documents_dataset" 1000 1
         empty_dataset_world = Raised (KeyError "doc_id") w'.
Proof. split; [vm_compute; reflexivity|]. eexists. vm_compute. reflexivity. Qed.
